(** * FastAuth wallet (src/lib/selector/fast-auth-wallet.ts)

    A shallow embedding of the wallet behaviour factory [FastAuthWallet] and of
    the module factory [setupFastAuthWallet].

    The file is asynchronous code over external collaborators (the wallet
    connection, the signer, the RPC provider, the relay reached with [fetch]).
    Every [async] function is embedded as a program of the free monad [Prog]:
    a tree whose nodes are the collaborator calls the function awaits, in the
    order the source performs them.  A program is run against an arbitrary
    handler that answers each call (or rejects it) and threads the state of the
    outside world; the run records the calls made.  [Promise.all] over the
    callbacks of [transformTransactions] is run by an explicit scheduler. *)

From Stdlib Require Import ZArith DecimalString Strings.Byte Strings.Ascii.
From Stdlib Require DecimalPos DecimalN.
From stdpp Require Import base list strings.

Local Open Scope Z_scope.

(** ** Exceptions and results *)

(** A thrown value.  [Error m] is [new Error(m)]; [TypeError p] is the
    engine's error for reading property [p] of [null]/[undefined]. *)
Inductive Exn : Type :=
| Error (message : string)
| TypeError (property : string).

Inductive result (A : Type) : Type :=
| Ok (a : A)
| Err (e : Exn).
Arguments Ok {A} a.
Arguments Err {A} e.

Definition is_ok {A} (r : result A) : bool :=
  match r with Ok _ => true | Err _ => false end.

(** ** External libraries

    Types and pure functions of near-api-js and @near-wallet-selector that the
    file only passes through.  [icon] is the default export of
    ./fast-auth-icon. *)
Class External : Type := {
  SelectorAction : Type;            (* Action of @near-wallet-selector/core *)
  NearAction : Type;                (* nearAPI.transactions.Action *)
  createAction : SelectorAction → NearAction;
  PublicKey : Type;                 (* nearAPI.utils.PublicKey *)
  PublicKey_toString : PublicKey → string;
  PublicKey_from : string → result PublicKey;
  base_decode : string → result (list Byte.byte);
  Permission : Type;
  SignedDelegate : Type;
  encodeSignedDelegate : SignedDelegate → list Byte.byte;
  Signer : Type;
  Provider : Type;
  Response : Type;                  (* what the promise of fetch resolves to *)
  icon : string;
}.

Section Wallet.
Context `{ext : External}.

(** ** Data model *)

Record Network : Type := { networkId : string }.

(** Account of @near-wallet-selector/core. *)
Record Account : Type := { accountId : string; publicKey : string }.

(** *** The operands of [+]

    In [accessKey.access_key.nonce + index + 1] the operands [index] and [1]
    are numbers holding small integers.  The type of the nonce is declared
    outside this file; it is taken to be either a number holding an integer
    or a value that [+] converts to a string: a string, or an object such as
    the BN in which near-api-js wraps the nonces of the access keys it
    lists. *)

(** A number whose value is an integer, or an infinity. *)
Inductive Number : Type :=
| Int (z : Z)
| Infinity (negative : bool).

(** Number.MAX_SAFE_INTEGER. *)
Definition MAX_SAFE_INTEGER : Z := 9007199254740991.

(** The number an integer result is rounded to: numbers are binary64, with a
    significand of 53 bits, ties go to the even significand, and what rounds
    to 2^1024 or more is an infinity. *)
Definition to_number (z : Z) : Number :=
  let a := Z.abs z in
  if a <? 2 ^ 53 then Int z
  else
    let e := Z.log2 a - 52 in
    let q := a / 2 ^ e in
    let r := a mod 2 ^ e in
    let half := 2 ^ (e - 1) in
    let q' := if r <? half then q
              else if half <? r then q + 1
              else if Z.even q then q else q + 1 in
    if 2 ^ 1024 <=? q' * 2 ^ e then Infinity (z <? 0)
    else Int (Z.sgn z * (q' * 2 ^ e)).

(** [Textual s]: the string [s], or an object that converts to it. *)
Inductive JsValue : Type :=
| JsNumber (x : Number)
| Textual (s : string).

(** [v + k] for a number [k] holding an integer that prints in plain digits,
    as an array index or the literal [1] does: the sum of two numbers,
    rounded; the concatenation as soon as [v] is not a number. *)
Definition js_add (v : JsValue) (k : Z) : JsValue :=
  match v with
  | JsNumber (Int z) => JsNumber (to_number (z + k))
  | JsNumber (Infinity negative) => JsNumber (Infinity negative)
  | Textual s => Textual (s +:+ NilZero.string_of_int (Z.to_int k))
  end.

Record AccessKeyView : Type := { nonce : JsValue; permission : Permission }.
Record AccessKeyInfoView : Type :=
  { public_key : string; access_key : AccessKeyView }.

(** Optional<Transaction, "signerId">, and the argument of
    signAndSendTransaction. *)
Record Transaction : Type :=
  { signerId : option string; receiverId : string;
    actions : list SelectorAction }.

(** What nearAPI.transactions.createTransaction builds. *)
Record NearTransaction : Type :=
  { tx_signerId : string; tx_publicKey : PublicKey; tx_receiverId : string;
    tx_nonce : JsValue; tx_actions : list NearAction;
    tx_blockHash : list Byte.byte }.

Definition createTransaction (signer : string) (pk : PublicKey)
    (receiver : string) (n : JsValue) (acts : list NearAction)
    (blockHash : list Byte.byte) : NearTransaction :=
  {| tx_signerId := signer; tx_publicKey := pk; tx_receiverId := receiver;
     tx_nonce := n; tx_actions := acts; tx_blockHash := blockHash |}.

Record BlockHeader : Type := { hash : string }.
Record BlockResult : Type := { header : BlockHeader }.

(** The object returned by _state.wallet.account(): its id and its
    connection { networkId, signer, provider }. *)
Record ConnectedAccount : Type :=
  { acct_accountId : string; conn_networkId : string;
    conn_signer : Signer; conn_provider : Provider }.

Record SignInParams : Type :=
  { si_contractId : string; si_methodNames : option (list string);
    si_successUrl : option string; si_failureUrl : option string;
    si_email : option string; si_accountId : option string;
    si_isRecovery : option bool }.

Record SignedDelegateOptions : Type :=
  { sd_actions : list NearAction; blockHeightTtl : Z; sd_receiverId : string }.

(** The second argument of fetch. *)
Record RequestInit : Type :=
  { method : string; mode : string; body : string;
    headers : list (string * string) }.

(** ** Collaborator calls *)

Inductive Call : Type :=
| wallet_getAccountId
| wallet_account
| wallet_isSignedIn
| wallet_signOut
| wallet_requestSignIn (p : SignInParams)
| signer_getPublicKey (s : Signer) (account network : string)
| account_accessKeyForTransaction (a : ConnectedAccount) (receiver : string)
    (acts : list NearAction) (localKey : option PublicKey)
| provider_block (p : Provider) (finality : string)
| account_signedDelegate (a : ConnectedAccount) (o : SignedDelegateOptions)
| fetch (url : string) (init : RequestInit).

(** What each call yields when it returns (or its promise fulfils).  [None]
    stands for null/undefined. *)
Definition Reply (c : Call) : Type :=
  match c with
  | wallet_getAccountId => string
  | wallet_account => option ConnectedAccount
  | wallet_isSignedIn => bool
  | wallet_signOut => unit
  | wallet_requestSignIn _ => unit
  | signer_getPublicKey _ _ _ => option PublicKey
  | account_accessKeyForTransaction _ _ _ _ => option AccessKeyInfoView
  | provider_block _ _ => BlockResult
  | account_signedDelegate _ _ => SignedDelegate
  | fetch _ _ => Response
  end.

(** ** Programs *)

Inductive Prog (A : Type) : Type :=
| Ret (a : A)
| Throw (e : Exn)
| Vis (c : Call) (k : Reply c → Prog A).
Arguments Ret {A} a.
Arguments Throw {A} e.
Arguments Vis {A} c k.

Fixpoint bind {A B} (p : Prog A) (f : A → Prog B) : Prog B :=
  match p with
  | Ret a => f a
  | Throw e => Throw e
  | Vis c k => Vis c (λ x, bind (k x) f)
  end.

Definition call (c : Call) : Prog (Reply c) := Vis c Ret.

Definition lift {A} (r : result A) : Prog A :=
  match r with Ok a => Ret a | Err e => Throw e end.

(** [let* x := p in q]: [const x = await p; q]. *)
Notation "'let*' x ':=' p 'in' q" := (bind p (λ x, q))
  (at level 10, x name, p at level 100, q at level 200).

(** One recorded call with its outcome. *)
Inductive Event : Type :=
| Called (c : Call) (r : result (Reply c)).

Definition event_call (ev : Event) : Call :=
  match ev with Called c _ => c end.

(** ** Running a program against the outside world *)

(** What a run leaves: the result, the state of the world, the calls made. *)
Record Outcome (W A : Type) : Type :=
  { res : result A; world : W; trace : list Event }.
Arguments Build_Outcome {W A}.
Arguments res {W A}.
Arguments world {W A}.
Arguments trace {W A}.

Inductive Task (A : Type) : Type :=
| Running (c : Call) (k : Reply c → Prog A)   (* awaiting the answer of [c] *)
| Fulfilled (a : A)
| Rejected (e : Exn).
Arguments Running {A} c k.
Arguments Fulfilled {A} a.
Arguments Rejected {A} e.

(** The promises given to one [Promise.all]; [rejected] is the reason of the
    first one that rejected, which is the reason [Promise.all] rejects
    with. *)
Record Pool (W A : Type) : Type :=
  { tasks : list (Task A); rejected : option Exn;
    pool_world : W; pool_trace : list Event }.
Arguments Build_Pool {W A}.
Arguments tasks {W A}.
Arguments rejected {W A}.
Arguments pool_world {W A}.
Arguments pool_trace {W A}.

Section Run.
Context {W : Type}.
Variable handle : ∀ c : Call, W → result (Reply c) * W.

Definition after {A} (ev : Event) (o : Outcome W A) : Outcome W A :=
  {| res := res o; world := world o; trace := ev :: trace o |}.

Fixpoint run {A} (p : Prog A) (w : W) : Outcome W A :=
  match p with
  | Ret a => {| res := Ok a; world := w; trace := [] |}
  | Throw e => {| res := Err e; world := w; trace := [] |}
  | Vis c k =>
      let '(r, w1) := handle c w in
      match r with
      | Ok x => after (Called c r) (run (k x) w1)
      | Err e => {| res := Err e; world := w1; trace := [Called c r] |}
      end
  end.

(** *** [Promise.all]

    The promises given to [Promise.all] run interleaved: each one advances
    when the call it awaits is answered, in an order the program does not
    control.  A schedule lists, step by step, which promise is resumed. *)

(** An async function runs synchronously up to its first await. *)
Definition start {A} (p : Prog A) : Task A :=
  match p with
  | Ret a => Fulfilled a
  | Throw e => Rejected e
  | Vis c k => Running c k
  end.

Definition rejection_of {A} (t : Task A) : option Exn :=
  match t with Rejected e => Some e | _ => None end.

Definition fulfilment_of {A} (t : Task A) : option A :=
  match t with Fulfilled a => Some a | _ => None end.

Definition first_rejection {A} (seen : option Exn) (t : Task A) : option Exn :=
  match seen with
  | Some e => Some e
  | None => rejection_of t
  end.

Definition spawn {A} (ps : list (Prog A)) (w : W) (tr : list Event) : Pool W A :=
  let ts := map start ps in
  {| tasks := ts; rejected := foldl first_rejection None ts;
     pool_world := w; pool_trace := tr |}.

(** Resume promise [i]: the call it awaits is answered.  A settled promise,
    or an index outside the array, has nothing to resume. *)
Definition resume {A} (p : Pool W A) (i : nat) : Pool W A :=
  match tasks p !! i with
  | Some (Running c k) =>
      let '(r, w1) := handle c (pool_world p) in
      let t := match r with
               | Ok x => start (k x)
               | Err e => Rejected e
               end in
      {| tasks := <[i := t]> (tasks p);
         rejected := first_rejection (rejected p) t;
         pool_world := w1;
         pool_trace := pool_trace p ++ [Called c r] |}
  | _ => p
  end.

Definition schedule {A} (sched : list nat) (p : Pool W A) : Pool W A :=
  foldl resume p sched.

(** The state of the promise returned by [Promise.all]: rejected with the
    first rejection, fulfilled with all the values in input order once every
    promise is fulfilled, pending ([None]) otherwise. *)
Definition promise_all {A} (p : Pool W A) : option (result (list A)) :=
  match rejected p with
  | Some e => Some (Err e)
  | None => Ok <$> mapM fulfilment_of (tasks p)
  end.

End Run.

(** ** The behaviour factory [FastAuthWallet]

    The operations close over the factory's argument: [metadata],
    [options.network], [relayerUrl] (and over [_state.wallet], whose methods
    are the [wallet_*] calls). *)

Record Metadata : Type :=
  { name : string; description : option string; iconUrl : string;
    deprecated : bool; available : bool; successUrl : string;
    failureUrl : string; walletUrl : string }.

Record FactoryOptions : Type :=
  { metadata : Metadata; options_network : Network; relayerUrl : string;
    params_walletUrl : string }.

Section Behaviour.
Variable o : FactoryOptions.

Definition getAccounts : Prog (list Account) :=
  let* accountId := call wallet_getAccountId in
  let* account := call wallet_account in
  if String.eqb accountId "" then Ret []
  else
    match account with
    | None => Ret []
    | Some account =>
        let* publicKey :=
          call (signer_getPublicKey (conn_signer account)
                  (acct_accountId account) (networkId (options_network o))) in
        Ret [ {| accountId := accountId;
                 publicKey := match publicKey with
                              | Some pk => PublicKey_toString pk
                              | None => ""
                              end |} ]
    end.

(** The callback given to [transactions.map] in [transformTransactions]. *)
Definition assemble (account : ConnectedAccount) (localKey : option PublicKey)
    (index : nat) (transaction : Transaction) : Prog NearTransaction :=
  let acts := map createAction (actions transaction) in
  let* accessKey :=
    call (account_accessKeyForTransaction account (receiverId transaction)
            acts localKey) in
  match accessKey with
  | None =>
      Throw (Error ("Failed to find matching key for transaction sent to "
                    +:+ receiverId transaction))
  | Some accessKey =>
      let* block := call (provider_block (conn_provider account) "final") in
      let* pk := lift (PublicKey_from (public_key accessKey)) in
      let* blockHash := lift (base_decode (hash (header block))) in
      Ret (createTransaction (acct_accountId account) pk
             (receiverId transaction)
             (js_add (js_add (nonce (access_key accessKey)) (Z.of_nat index)) 1)
             acts blockHash)
  end.

(** The part of [transformTransactions] before [Promise.all]. *)
Definition localSigner : Prog (ConnectedAccount * option PublicKey) :=
  let* account := call wallet_account in
  match account with
  | None => Throw (TypeError "connection")
  | Some account =>
      let* localKey :=
        call (signer_getPublicKey (conn_signer account)
                (acct_accountId account) (conn_networkId account)) in
      Ret (account, localKey : option PublicKey)
  end.

Definition signIn (p : SignInParams) : Prog (list Account) :=
  let* existingAccounts := getAccounts in
  if negb (Nat.eqb (length existingAccounts) 0) then Ret existingAccounts
  else
    let* _ := call (wallet_requestSignIn p) in
    getAccounts.

Definition signOut : Prog unit :=
  let* signedIn := call wallet_isSignedIn in
  if (signedIn : bool) then call wallet_signOut else Ret tt.

Definition verifyOwner : Prog unit :=
  Throw (Error ("Method not supported by " +:+ name (metadata o))).

(** [Array.from] of a byte array, and [JSON.stringify] of an array of such
    numbers. *)
Definition Array_from (bytes : list Byte.byte) : list N := map Byte.to_N bytes.

Definition JSON_stringify (xs : list N) : string :=
  "[" +:+ String.concat "," (map (λ n, NilZero.string_of_uint (N.to_uint n)) xs)
      +:+ "]".

Definition relayRequest (signedDelegate : SignedDelegate) : RequestInit :=
  {| method := "POST"; mode := "cors";
     body := JSON_stringify (Array_from (encodeSignedDelegate signedDelegate));
     headers := [("Content-Type", "application/json")] |}.

Definition signAndSendTransaction (t : Transaction) : Prog unit :=
  let* account := call wallet_account in
  match account with
  | None => Throw (TypeError "signedDelegate")
  | Some account =>
      let* signedDelegate :=
        call (account_signedDelegate account
                {| sd_actions := map createAction (actions t);
                   blockHeightTtl := 60;
                   sd_receiverId := receiverId t |}) in
      let* _ := call (fetch (relayerUrl o) (relayRequest signedDelegate)) in
      Ret tt
  end.

(** The for-of loop; [this] is the object the method belongs to. *)
Fixpoint signAndSendTransactions (transactions : list Transaction) : Prog unit :=
  match transactions with
  | [] => Ret tt
  | t :: rest =>
      let* _ := signAndSendTransaction
                  {| receiverId := receiverId t; signerId := signerId t;
                     actions := actions t |} in
      signAndSendTransactions rest
  end.

End Behaviour.

(** ** The module factory *)

(** [if (walletUrl)]: undefined and the empty string are falsy. *)
Definition truthy (s : option string) : bool :=
  match s with
  | None => false
  | Some u => negb (String.eqb u "")
  end.

Definition resolveWalletUrl (network : Network) (walletUrl : option string)
    : result string :=
  if truthy walletUrl then Ok (default "" walletUrl)
  else if String.eqb (networkId network) "mainnet" then Ok "http://localhost:3000"
  else if String.eqb (networkId network) "testnet" then Ok "http://localhost:3000"
  else Err (Error "Invalid wallet url").

Record FastAuthWalletParams : Type :=
  { p_walletUrl : option string; p_iconUrl : option string;
    p_deprecated : option bool; p_successUrl : option string;
    p_failureUrl : option string; p_relayerUrl : option string }.

(** What the wallet selector hands to the module factory and to [init]. *)
Record ModuleOptions : Type := { mo_network : Network }.
Record InitOptions : Type :=
  { init_metadata : Metadata; init_network : Network }.

(** [init] evaluates the argument of [FastAuthWallet] and then calls it; the
    field holds that argument. *)
Record WalletModule : Type :=
  { module_id : string; module_type : string; module_metadata : Metadata;
    init : InitOptions → result FactoryOptions }.

Definition setupFastAuthWallet (p : FastAuthWalletParams)
    (moduleOptions : ModuleOptions) : result WalletModule :=
  let walletUrl := p_walletUrl p in
  let iconUrl := default icon (p_iconUrl p) in
  let deprecated := default false (p_deprecated p) in
  let successUrl := default "" (p_successUrl p) in
  let failureUrl := default "" (p_failureUrl p) in
  let relayerUrl := default "" (p_relayerUrl p) in
  match resolveWalletUrl (mo_network moduleOptions) walletUrl with
  | Err e => Err e
  | Ok url =>
      Ok {| module_id := "fast-auth-wallet";
            module_type := "browser";
            module_metadata :=
              {| name := "FastAuthWallet"; description := None;
                 iconUrl := iconUrl; deprecated := deprecated;
                 available := true; successUrl := successUrl;
                 failureUrl := failureUrl; walletUrl := url |};
            init := λ options,
              match resolveWalletUrl (init_network options) walletUrl with
              | Err e => Err e
              | Ok url =>
                  Ok {| metadata := init_metadata options;
                        options_network := init_network options;
                        relayerUrl := relayerUrl;
                        params_walletUrl := url |}
              end |}
  end.

(** ** [transformTransactions] *)

Section Transform.
Context {W : Type}.
Variable handle : ∀ c : Call, W → result (Reply c) * W.

(** The promise returned by [transformTransactions], after the promises of
    the batch have been resumed as [sched] says: [None] while pending. *)
Record Assembly : Type :=
  { assembled : option (result (list NearTransaction));
    assembly_world : W; assembly_trace : list Event }.

Definition transformTransactions (sched : list nat)
    (transactions : list Transaction) (w : W) : Assembly :=
  let signer := run handle localSigner w in
  match res signer with
  | Err e =>
      {| assembled := Some (Err e); assembly_world := world signer;
         assembly_trace := trace signer |}
  | Ok (account, localKey) =>
      let pool :=
        schedule handle sched
          (spawn (imap (assemble account localKey) transactions)
             (world signer) (trace signer)) in
      {| assembled := promise_all pool; assembly_world := pool_world pool;
         assembly_trace := pool_trace pool |}
  end.

End Transform.

End Wallet.

Arguments Ret {ext A} a.
Arguments Throw {ext A} e.
Arguments Vis {ext A} c k.
Arguments Called {ext} c r.
Arguments Build_Outcome {ext W A}.
Arguments res {ext W A}.
Arguments world {ext W A}.
Arguments trace {ext W A}.
Arguments Running {ext A} c k.
Arguments Fulfilled {ext A} a.
Arguments Rejected {ext A} e.
Arguments Build_Pool {ext W A}.
Arguments tasks {ext W A}.
Arguments rejected {ext W A}.
Arguments pool_world {ext W A}.
Arguments pool_trace {ext W A}.
Arguments assembled {ext W}.
Arguments assembly_world {ext W}.
Arguments assembly_trace {ext W}.

Notation "'let*' x ':=' p 'in' q" := (bind p (λ x, q))
  (at level 10, x name, p at level 100, q at level 200).

(** ** A reference environment

    A small concrete world against which the statements below are
    instantiated: one browser session, one key store, a ledger with one
    access key per account and a relay that logs what it is sent. *)

Module Demo.

Inductive Action : Type :=
| CreateAccount
| Transfer (deposit : Z)
| FunctionCall (methodName : string) (gas deposit : Z).

Record Delegate : Type :=
  { d_sender : string; d_receiver : string; d_actions : list Action;
    d_ttl : Z }.

Definition bytes_of_string (s : string) : list Byte.byte :=
  String.list_byte_of_string s.

#[export] Instance ext : External :=
  {| SelectorAction := Action;
     NearAction := Action;
     createAction := id;
     PublicKey := string;
     PublicKey_toString := id;
     PublicKey_from := λ s, if String.eqb s "" then Err (Error "Unknown curve")
                            else Ok s;
     base_decode := λ s, Ok (bytes_of_string s);
     Permission := unit;
     SignedDelegate := Delegate;
     encodeSignedDelegate := λ d, bytes_of_string (d_receiver d);
     Signer := unit;
     Provider := unit;
     Response := Z;
     icon := "data:image/png;base64," |}.

(** [session]: the signed-in account id, empty when signed out; [stored_key]:
    the key the key store holds for it; [relay_status]: the HTTP status the
    relay answers with, [None] when the relay cannot be reached; [relayed]:
    the bodies posted so far. *)
Record World : Type :=
  { session : string; stored_key : option string;
    relay_status : option Z; relayed : list string }.

(** The ledger: every account but "unknown.testnet" accepts the local key,
    with nonce 5. *)
Definition ledger_key_with (n : JsValue) (localKey : option string)
    : AccessKeyInfoView :=
  {| public_key := default "ed25519:6E8sCci9badyRkXb3JoRpBj5p8C6Tw41ELDZoiihKEtp"
                     localKey;
     access_key := {| nonce := n; permission := tt |} |}.

Definition ledger_key : option string → AccessKeyInfoView :=
  ledger_key_with (JsNumber (Int 5)).

Definition the_account (w : World) : ConnectedAccount :=
  {| acct_accountId := session w; conn_networkId := "testnet";
     conn_signer := tt; conn_provider := tt |}.

Definition handle (c : Call) : World → result (Reply c) * World :=
  match c as c0 return World → result (Reply c0) * World with
  | wallet_getAccountId => λ w, (Ok (session w), w)
  | wallet_account => λ w, (Ok (Some (the_account w)), w)
  | wallet_isSignedIn => λ w, (Ok (negb (String.eqb (session w) "")), w)
  | wallet_signOut => λ w,
      (Ok tt, {| session := ""; stored_key := None;
                 relay_status := relay_status w; relayed := relayed w |})
  | wallet_requestSignIn p => λ w,
      (Ok tt, {| session := default "alice.testnet" (si_accountId p);
                 stored_key := Some "ed25519:6E8sCci9badyRkXb3JoRpBj5p8C6Tw41ELDZoiihKEtp";
                 relay_status := relay_status w; relayed := relayed w |})
  | signer_getPublicKey _ _ _ => λ w, (Ok (stored_key w), w)
  | account_accessKeyForTransaction _ receiver _ localKey => λ w,
      (Ok (if String.eqb receiver "unknown.testnet" then None
           else Some (ledger_key localKey)), w)
  | provider_block _ _ => λ w,
      (Ok {| header := {| hash := "9MzuZrRPW1BGpFnZJUJg6SzCrixPpJDfjsNeUobRXsLe" |} |}, w)
  | account_signedDelegate a o => λ w,
      (match stored_key w with
       | None => Err (Error "no key to sign with")
       | Some _ =>
           if String.eqb (sd_receiverId o) "unknown.testnet"
           then Err (Error "no matching key")
           else
             Ok {| d_sender := acct_accountId a; d_receiver := sd_receiverId o;
                   d_actions := sd_actions o; d_ttl := blockHeightTtl o |}
       end, w)
  | fetch url init => λ w,
      match relay_status w with
      | None => (Err (TypeError "Failed to fetch"), w)
      | Some status =>
          (Ok status, {| session := session w; stored_key := stored_key w;
                         relay_status := relay_status w;
                         relayed := relayed w ++ [body init] |})
      end
  end.

(** The same world, but for the nonce of the keys the ledger returns. *)
Definition handle_with_nonce (n : JsValue) (c : Call)
    : World → result (Reply c) * World :=
  match c as c0 return World → result (Reply c0) * World with
  | account_accessKeyForTransaction _ receiver _ localKey => λ w,
      (Ok (if String.eqb receiver "unknown.testnet" then None
           else Some (ledger_key_with n localKey)), w)
  | c0 => handle c0
  end.

Definition signed_out : World :=
  {| session := ""; stored_key := None;
     relay_status := Some 200; relayed := [] |}.

Definition signed_in : World :=
  {| session := "alice.testnet";
     stored_key := Some "ed25519:6E8sCci9badyRkXb3JoRpBj5p8C6Tw41ELDZoiihKEtp";
     relay_status := Some 200; relayed := [] |}.

(** Signed in, but the key store has lost the key. *)
Definition keyless : World :=
  {| session := "alice.testnet"; stored_key := None;
     relay_status := Some 200; relayed := [] |}.

(** Signed in with a key the ledger knows under a name that is no public
    key. *)
Definition misnamed_key : World :=
  {| session := "alice.testnet"; stored_key := Some "";
     relay_status := Some 200; relayed := [] |}.

(** Signed in, the relay answers every request with a server error. *)
Definition relay_failing : World :=
  {| session := "alice.testnet";
     stored_key := Some "ed25519:6E8sCci9badyRkXb3JoRpBj5p8C6Tw41ELDZoiihKEtp";
     relay_status := Some 500; relayed := [] |}.

Definition options : FactoryOptions :=
  {| metadata := {| name := "FastAuthWallet"; description := None;
                    iconUrl := icon; deprecated := false; available := true;
                    successUrl := ""; failureUrl := "";
                    walletUrl := "http://localhost:3000" |};
     options_network := {| networkId := "testnet" |};
     relayerUrl := "https://relayer.example/relay";
     params_walletUrl := "http://localhost:3000" |}.

Definition pay (receiver : string) (amount : Z) : Transaction :=
  {| signerId := None; receiverId := receiver; actions := [Transfer amount] |}.

Definition pay_as (signer receiver : string) (amount : Z) : Transaction :=
  {| signerId := Some signer; receiverId := receiver;
     actions := [Transfer amount] |}.

End Demo.

(** * Specification vocabulary *)

Section Vocabulary.
Context `{ext : External}.

(** A program throws only what [P] allows: the errors of its own [throw]
    statements. *)
Definition own_throws {A} (P : Exn → Prop) : Prog A → Prop :=
  fix go (p : Prog A) : Prop :=
    match p with
    | Ret _ => True
    | Throw e => P e
    | Vis c k => ∀ x, go (k x)
    end.

(** The sign-in handshake, and the calls of the transaction assembler. *)
Definition is_handshake (c : Call) : bool :=
  match c with wallet_requestSignIn _ => true | _ => false end.

Definition is_assembly (c : Call) : bool :=
  match c with
  | account_accessKeyForTransaction _ _ _ _ | provider_block _ _ => true
  | _ => false
  end.

(** *** Programs under assumptions on the collaborators

    [R c r] says which outcomes [r] a call [c] may have.  Relative to it, a
    program [ensures Q] when every value it returns satisfies [Q], and
    [finishes m] when it returns a value, without throwing, after at most [m]
    answered calls. *)

Section Obligations.
Context {A : Type}.
Variable R : ∀ c : Call, result (Reply c) → Prop.

Fixpoint ensures (Q : A → Prop) (p : Prog A) : Prop :=
  match p with
  | Ret a => Q a
  | Throw _ => True
  | Vis c k => ∀ x, R c (Ok x) → ensures Q (k x)
  end.

Definition task_ensures (Q : A → Prop) (t : Task A) : Prop :=
  match t with
  | Running c k => ∀ x, R c (Ok x) → ensures Q (k x)
  | Fulfilled a => Q a
  | Rejected _ => True
  end.

Fixpoint finishes (m : nat) (p : Prog A) {struct p} : Prop :=
  match p with
  | Ret _ => True
  | Throw _ => False
  | Vis c k =>
      match m with
      | O => False
      | S m' => (∀ e, ¬ R c (Err e)) ∧ ∀ x, R c (Ok x) → finishes m' (k x)
      end
  end.

Definition task_finishes (m : nat) (t : Task A) : Prop :=
  match t with
  | Running c k =>
      match m with
      | O => False
      | S m' => (∀ e, ¬ R c (Err e)) ∧ ∀ x, R c (Ok x) → finishes m' (k x)
      end
  | Fulfilled _ => True
  | Rejected _ => False
  end.

(** A promise that can only reject: it awaits one call, and throws whatever
    the answer. *)
Definition task_doomed (t : Task A) : Prop :=
  match t with
  | Running c k => ∀ x, R c (Ok x) → ∃ e, k x = Throw e
  | Fulfilled _ => False
  | Rejected _ => True
  end.

End Obligations.

(** Whenever one of the promises is rejected, so is [Promise.all]. *)
Definition notes_rejections {W A} (p : Pool W A) : Prop :=
  ∀ j e, tasks p !! j = Some (Rejected e) → is_Some (rejected p).

(** *** The assembler's lookups *)

Definition lookup_of (account : ConnectedAccount) (localKey : option PublicKey)
    (tx : Transaction) : Call :=
  account_accessKeyForTransaction account (receiverId tx)
    (map createAction (actions tx)) localKey.

Definition no_matching_key (tx : Transaction) : Exn :=
  Error ("Failed to find matching key for transaction sent to "
         +:+ receiverId tx).

Section Lookups.
Variable account : ConnectedAccount.
Variable localKey : option PublicKey.

(** The lookups of the batch [transactions] find [key]. *)
Definition finds_key (transactions : list Transaction)
    (key : AccessKeyInfoView) (c : Call) : result (Reply c) → Prop :=
  match c with
  | account_accessKeyForTransaction a receiver acts lk => λ r,
      a = account → lk = localKey →
      (∃ tx, tx ∈ transactions ∧ receiver = receiverId tx ∧
             acts = map createAction (actions tx)) →
      r = Ok (Some key)
  | _ => λ _, True
  end.

(** ... and, besides, the block fetches succeed with a hash that decodes. *)
Definition finds_key_and_block (transactions : list Transaction)
    (key : AccessKeyInfoView) (c : Call) : result (Reply c) → Prop :=
  match c with
  | account_accessKeyForTransaction a receiver acts lk =>
      finds_key transactions key
        (account_accessKeyForTransaction a receiver acts lk)
  | provider_block p finality => λ r,
      p = conn_provider account → finality = "final" →
      ∃ b, r = Ok b ∧ is_ok (base_decode (hash (header b))) = true
  | _ => λ _, True
  end.

(** What the transaction assembled at index [i] must be. *)
Definition assembled_at (transactions : list Transaction)
    (key : AccessKeyInfoView) (i : nat) (ntx : NearTransaction) : Prop :=
  tx_nonce ntx = js_add (js_add (nonce (access_key key)) (Z.of_nat i)) 1 ∧
  tx_signerId ntx = acct_accountId account ∧
  ∃ tx, transactions !! i = Some tx ∧
        tx_receiverId ntx = receiverId tx ∧
        tx_actions ntx = map createAction (actions tx).

(** The lookup for [tx] finds nothing. *)
Definition finds_nothing (tx : Transaction) (c : Call)
    : result (Reply c) → Prop :=
  match c with
  | account_accessKeyForTransaction a receiver acts lk => λ r,
      a = account → receiver = receiverId tx →
      acts = map createAction (actions tx) → lk = localKey →
      r = Ok None
  | _ => λ _, True
  end.

End Lookups.

End Vocabulary.

(** * Further vocabulary *)

Section Coverage.
Context `{ext : External}.

(** The calls that sign for, or reach, the relay. *)
Definition is_relay (c : Call) : bool :=
  match c with
  | account_signedDelegate _ _ | fetch _ _ => true
  | _ => false
  end.

(** The calls [getAccounts] may make. *)
Definition session_call (c : Call) : Prop :=
  match c with
  | wallet_getAccountId | wallet_account | signer_getPublicKey _ _ _ => True
  | _ => False
  end.

(** No account, or exactly one, with an account id. *)
Definition at_most_one_account (accounts : list Account) : Prop :=
  accounts = [] ∨ ∃ a, accounts = [a] ∧ accountId a ≠ "".

(** A program makes only calls allowed by [P]. *)
Definition calls_only {A} (P : Call → Prop) : Prog A → Prop :=
  fix go (p : Prog A) : Prop :=
    match p with
    | Ret _ | Throw _ => True
    | Vis c k => P c ∧ ∀ x, go (k x)
    end.

Definition task_calls_only {A} (P : Call → Prop) (t : Task A) : Prop :=
  match t with
  | Running c k => P c ∧ ∀ x, calls_only P (k x)
  | _ => True
  end.

(** With calls weighing [wt], a program that returns a value has made calls
    of total weight exactly [m], and none of its runs weighs more. *)
Fixpoint spends {A} (wt : Call → nat) (m : nat) (p : Prog A) {struct p} : Prop :=
  match p with
  | Ret _ => m = 0%nat
  | Throw _ => True
  | Vis c k => (wt c ≤ m)%nat ∧ ∀ x, spends wt (m - wt c) (k x)
  end.

Definition task_spends {A} (wt : Call → nat) (m : nat) (t : Task A) : Prop :=
  match t with
  | Running c k => (wt c ≤ m)%nat ∧ ∀ x, spends wt (m - wt c) (k x)
  | Fulfilled _ => m = 0%nat
  | Rejected _ => True
  end.

Definition weight (wt : Call → nat) (tr : list Event) : nat :=
  sum_list_with (λ ev, wt (event_call ev)) tr.

Definition count_calls (f : Call → bool) : list Event → nat :=
  weight (λ c, if f c then 1%nat else 0%nat).

Definition is_lookup (c : Call) : bool :=
  match c with account_accessKeyForTransaction _ _ _ _ => true | _ => false end.

Definition is_block (c : Call) : bool :=
  match c with provider_block _ _ => true | _ => false end.

(** The options [signAndSendTransaction] signs the delegate of [t] with. *)
Definition delegateOptions (t : Transaction) : SignedDelegateOptions :=
  {| sd_actions := map createAction (actions t);
     blockHeightTtl := 60;
     sd_receiverId := receiverId t |}.

(** The delegates a run asked for, and the requests it got an answer to, in
    the order of the calls. *)
Definition delegated (ev : Event) : option SignedDelegateOptions :=
  match event_call ev with
  | account_signedDelegate _ o => Some o
  | _ => None
  end.

Definition answered_post (ev : Event) : option (string * RequestInit) :=
  match ev with
  | Called c r =>
      match c with
      | fetch url init => if is_ok r then Some (url, init) else None
      | _ => None
      end
  end.

Definition delegations (tr : list Event) : list SignedDelegateOptions :=
  omap delegated tr.

Definition answered_posts (tr : list Event) : list (string * RequestInit) :=
  omap answered_post tr.

(** The calls dispatch may make for a wallet of options [o]. *)
Definition dispatch_call (o : FactoryOptions) (c : Call) : Prop :=
  match c with
  | wallet_account => True
  | account_signedDelegate _ opts => blockHeightTtl opts = 60
  | fetch url init =>
      url = relayerUrl o ∧ method init = "POST" ∧ mode init = "cors" ∧
      headers init = [("Content-Type", "application/json")]
  | _ => False
  end.

(** The calls the callbacks of a batch may make: the lookup of one of its
    transactions, or the fetch of the final block. *)
Definition assembly_call (account : ConnectedAccount)
    (localKey : option PublicKey) (transactions : list Transaction)
    (c : Call) : Prop :=
  (∃ tx, tx ∈ transactions ∧ c = lookup_of account localKey tx) ∨
  c = provider_block (conn_provider account) "final".

(** [returns_with Q h p]: whatever [p] returns satisfies [Q] together with
    the answered calls that led to it, those of [h] first. *)
Fixpoint returns_with {A} (Q : list Event → A → Prop) (h : list Event)
    (p : Prog A) : Prop :=
  match p with
  | Ret a => Q h a
  | Throw _ => True
  | Vis c k => ∀ x, returns_with Q (h ++ [Called c (Ok x)]) (k x)
  end.

Definition task_returns_with {A} (Q : list Event → A → Prop) (h : list Event)
    (t : Task A) : Prop :=
  match t with
  | Running c k => ∀ x, returns_with Q (h ++ [Called c (Ok x)]) (k x)
  | Fulfilled a => Q h a
  | Rejected _ => True
  end.

(** Every promise of the pool has a history of answered calls, all recorded
    in the pool's trace in that order, with which it returns what [Q]
    says. *)
Definition pool_returns_with {W A} (Q : nat → list Event → A → Prop)
    (p : Pool W A) : Prop :=
  ∀ j t, tasks p !! j = Some t →
         ∃ h, sublist h (pool_trace p) ∧ task_returns_with (Q j) h t.

(** The transaction assembled for [tx] at index [i], given the calls its
    callback has had answered: the lookup of [tx], then the fetch of the
    final block. *)
Definition assembled_from (account : ConnectedAccount)
    (localKey : option PublicKey) (tx : Transaction) (i : nat)
    (h : list Event) (ntx : NearTransaction) : Prop :=
  ∃ key block pk blockHash,
    h = [Called (lookup_of account localKey tx) (Ok (Some key));
         Called (provider_block (conn_provider account) "final") (Ok block)] ∧
    PublicKey_from (public_key key) = Ok pk ∧
    base_decode (hash (header block)) = Ok blockHash ∧
    ntx = {| tx_signerId := acct_accountId account; tx_publicKey := pk;
             tx_receiverId := receiverId tx;
             tx_nonce :=
               js_add (js_add (nonce (access_key key)) (Z.of_nat i)) 1;
             tx_actions := map createAction (actions tx);
             tx_blockHash := blockHash |}.

(** The ledger only returns, for the local key, keys whose public key does
    not parse; the final block's hash never decodes. *)
Definition keys_unparsable (account : ConnectedAccount)
    (localKey : option PublicKey) (c : Call) : result (Reply c) → Prop :=
  match c with
  | account_accessKeyForTransaction a _ _ lk => λ r,
      a = account → lk = localKey →
      ∀ key, r = Ok (Some key) →
             is_ok (PublicKey_from (public_key key)) = false
  | _ => λ _, True
  end.

Definition hashes_undecodable (c : Call) : result (Reply c) → Prop :=
  match c with
  | provider_block _ _ => λ r,
      ∀ block, r = Ok block →
               is_ok (base_decode (hash (header block))) = false
  | _ => λ _, True
  end.

(** How [JSON_stringify] writes a number. *)
Definition decimal (n : N) : string := NilZero.string_of_uint (N.to_uint n).

(** Reading back the text of [JSON_stringify]: the pieces between commas. *)
Fixpoint split_commas (s : string) : list string :=
  match s with
  | EmptyString => [EmptyString]
  | String c s' =>
      if Ascii.eqb c ","%char then EmptyString :: split_commas s'
      else match split_commas s' with
           | t :: ts => String c t :: ts
           | [] => [String c EmptyString]
           end
  end.

Fixpoint no_comma (s : string) : bool :=
  match s with
  | EmptyString => true
  | String c s' => negb (Ascii.eqb c ","%char) && no_comma s'
  end.

End Coverage.

(** * Properties *)

Section RunFacts.
Context `{ext : External} {W : Type}.
Variable handle : ∀ c : Call, W → result (Reply c) * W.

(** Awaiting [p] and continuing with [f]: [f] starts in the world [p] left,
    and only when [p] did not throw. *)
Lemma run_bind {A B} (p : Prog A) (f : A → Prog B) (w : W) :
  run handle (bind p f) w =
    let o1 := run handle p w in
    match res o1 with
    | Ok a =>
        let o2 := run handle (f a) (world o1) in
        {| res := res o2; world := world o2; trace := trace o1 ++ trace o2 |}
    | Err e => {| res := Err e; world := world o1; trace := trace o1 |}
    end.
Proof.
  revert w. induction p as [a | e | c k IH]; intros w; cbn.
  - by destruct (run handle (f a) w).
  - done.
  - destruct (handle c w) as [[x | e] w1]; cbn; [| done].
    rewrite IH. cbn. by destruct (res (run handle (k x) w1)).
Qed.

(** An error a run ends with is one of the program's own throws, or the
    rejection of the last call it made. *)
Lemma run_err_origin {A} (P : Exn → Prop) (p : Prog A) (w : W) e :
  own_throws P p →
  res (run handle p w) = Err e →
  P e ∨ ∃ c, last (trace (run handle p w)) = Some (Called c (Err e)).
Proof.
  revert w. induction p as [a | e' | c k IH]; intros w Hown; cbn.
  - done.
  - intros [= <-]. by left.
  - destruct (handle c w) as [[x | e'] w1]; cbn.
    + intros Hres. destruct (IH x w1 (Hown x) Hres) as [? | [c' Hlast]];
        [by left |]. right. exists c'.
      destruct (trace (run handle (k x) w1)); [done |]. by rewrite last_cons, Hlast.
    + intros [= <-]. right. by exists c.
Qed.

End RunFacts.


(** ** Wallet URL resolution *)

Lemma resolveWalletUrl_override (network : Network) (url : string) :
  url ≠ "" → resolveWalletUrl network (Some url) = Ok url.
Proof.
  intros Hurl. unfold resolveWalletUrl, truthy.
  destruct (String.eqb_spec url ""); [done |]. done.
Qed.

Lemma resolveWalletUrl_known (network : Network) (walletUrl : option string) :
  truthy walletUrl = false →
  networkId network = "mainnet" ∨ networkId network = "testnet" →
  resolveWalletUrl network walletUrl = Ok "http://localhost:3000".
Proof.
  intros Hno [Hnet | Hnet]; unfold resolveWalletUrl; by rewrite Hno, Hnet.
Qed.

(** C9, as stated, fails: a configured wallet URL is returned for any
    network, here for "localnet". *)
Lemma resolveWalletUrl_unknown_network_accepted :
  networkId {| networkId := "localnet" |} ≠ "mainnet" ∧
  networkId {| networkId := "localnet" |} ≠ "testnet" ∧
  resolveWalletUrl {| networkId := "localnet" |} (Some "https://wallet.example")
    = Ok "https://wallet.example" ∧
  is_ok (resolveWalletUrl {| networkId := "localnet" |}
           (Some "https://wallet.example")) = true.
Proof. repeat split; done. Qed.

(** C9 (amended): when no wallet URL is configured (absent or empty), the
    resolution throws "Invalid wallet url" for every network identifier other
    than "mainnet" and "testnet"; the module factory then fails with that
    error and yields no module, hence no [init]. *)
Theorem resolveWalletUrl_unknown_network `{ext : External}
    (network : Network) (walletUrl : option string) :
  truthy walletUrl = false →
  networkId network ≠ "mainnet" →
  networkId network ≠ "testnet" →
  resolveWalletUrl network walletUrl = Err (Error "Invalid wallet url") ∧
  ∀ p : FastAuthWalletParams,
    p_walletUrl p = walletUrl →
    setupFastAuthWallet p {| mo_network := network |}
      = Err (Error "Invalid wallet url").
Proof.
  intros Hno Hmain Htest.
  assert (Hres : resolveWalletUrl network walletUrl
                 = Err (Error "Invalid wallet url")).
  { unfold resolveWalletUrl. rewrite Hno.
    destruct (String.eqb_spec (networkId network) "mainnet"); [done |].
    by destruct (String.eqb_spec (networkId network) "testnet"). }
  split; [done |]. intros p <-. unfold setupFastAuthWallet. cbn.
  by rewrite Hres.
Qed.

Lemma resolveWalletUrl_unknown_network_witness :
  resolveWalletUrl {| networkId := "localnet" |} None
    = Err (Error "Invalid wallet url") ∧
  ∀ p : FastAuthWalletParams,
    p_walletUrl p = None →
    setupFastAuthWallet (ext := Demo.ext) p
      {| mo_network := {| networkId := "localnet" |} |}
      = Err (Error "Invalid wallet url").
Proof.
  apply (resolveWalletUrl_unknown_network {| networkId := "localnet" |} None);
    [reflexivity | discriminate | discriminate].
Defined.

(** ** [verifyOwner] *)

Section VerifyOwner.
Context `{ext : External} {W : Type}.
Variable handle : ∀ c : Call, W → result (Reply c) * W.

(** C8: whatever the state of the session, [verifyOwner] throws "Method not
    supported by <wallet name>", calls no collaborator and leaves the world as
    it is. *)
Theorem verifyOwner_unsupported (o : FactoryOptions) (w : W) :
  run handle (verifyOwner o) w =
    {| res := Err (Error ("Method not supported by " +:+ name (metadata o)));
       world := w; trace := [] |}.
Proof. reflexivity. Qed.

End VerifyOwner.

(** The wallet the module factory sets up is named "FastAuthWallet". *)
Lemma verifyOwner_names_FastAuthWallet `{ext : External}
    (p : FastAuthWalletParams) (mo : ModuleOptions) (m : WalletModule)
    (network : Network) (o : FactoryOptions) :
  setupFastAuthWallet p mo = Ok m →
  init m {| init_metadata := module_metadata m; init_network := network |}
    = Ok o →
  verifyOwner o = Throw (Error "Method not supported by FastAuthWallet").
Proof.
  unfold setupFastAuthWallet.
  destruct (resolveWalletUrl (mo_network mo) (p_walletUrl p)); [| done].
  intros [= <-]. cbn.
  destruct (resolveWalletUrl network (p_walletUrl p)); [| done].
  by intros [= <-].
Qed.

(** ** The session: [getAccounts] and [signIn] *)

Section Session.
Context `{ext : External} {W : Type}.
Variable handle : ∀ c : Call, W → result (Reply c) * W.
Variable o : FactoryOptions.

(** [getAccounts] has no [throw] of its own. *)
Lemma getAccounts_own_throws : own_throws (λ _, False) (getAccounts o).
Proof.
  intros accountId account. cbn.
  destruct (String.eqb accountId ""); [done |]. by destruct account.
Qed.

(** [getAccounts] only queries the session and the signer. *)
Lemma getAccounts_no_handshake (w : W) :
  Forall (λ ev, is_handshake (event_call ev) = false)
    (trace (run handle (getAccounts o) w)).
Proof.
  unfold getAccounts. cbn.
  destruct (handle wallet_getAccountId w) as [[accountId | e] w1];
    [| by repeat constructor].
  cbn. destruct (handle wallet_account w1) as [[account | e] w2];
    [| by repeat constructor].
  cbn. destruct (String.eqb accountId ""); [by repeat constructor |].
  destruct account as [a |]; [| by repeat constructor].
  cbn. destruct (handle _ w2) as [[key | e] w3]; by repeat constructor.
Qed.

(** C6 (amended): with no account signed in (empty account id, or no account
    object) [getAccounts] returns the empty sequence without consulting the
    signer; with an account signed in and the signer's lookup answered, it
    returns exactly one record {accountId, publicKey}, whose publicKey is the
    key's string form, or the empty string when the signer has no key; and it
    throws nothing of its own: an error it ends with is the rejection of the
    last collaborator call it made. *)
Theorem getAccounts_accounts (w w1 w2 : W) (id : string)
    (account : option ConnectedAccount) :
  handle wallet_getAccountId w = (Ok id, w1) →
  handle wallet_account w1 = (Ok account, w2) →
  let out := run handle (getAccounts o) w in
  (id = "" ∨ account = None →
     out = {| res := Ok []; world := w2;
              trace := [Called wallet_getAccountId (Ok id);
                        Called wallet_account (Ok account)] |}) ∧
  (∀ a key w3,
     id ≠ "" → account = Some a →
     handle (signer_getPublicKey (conn_signer a) (acct_accountId a)
               (networkId (options_network o))) w2 = (Ok key, w3) →
     res out = Ok [ {| accountId := id;
                       publicKey := match key with
                                    | Some pk => PublicKey_toString pk
                                    | None => ""
                                    end |} ] ∧
     world out = w3) ∧
  (∀ e, res out = Err e → ∃ c, last (trace out) = Some (Called c (Err e))).
Proof.
  intros Hid Hacct out. split; [| split].
  - intros Hout. subst out. unfold getAccounts. cbn.
    rewrite Hid. cbn. rewrite Hacct. cbn.
    destruct (String.eqb_spec id ""); [done |].
    destruct Hout as [-> | ->]; done.
  - intros a key w3 Hne -> Hkey. subst out. unfold getAccounts. cbn.
    rewrite Hid. cbn. rewrite Hacct. cbn.
    destruct (String.eqb_spec id ""); [done |].
    cbn. rewrite Hkey. done.
  - intros e He.
    destruct (run_err_origin handle (λ _, False) (getAccounts o) w e
                getAccounts_own_throws He) as [[] | Hc].
    exact Hc.
Qed.

(** C7: while an account is signed in (the account list is not empty),
    [signIn] is [getAccounts]: it returns the existing list, leaves the world
    as [getAccounts] does, and makes the same calls, none of which is
    [requestSignIn]. *)
Theorem signIn_idempotent (p : SignInParams) (w : W) (accounts : list Account) :
  res (run handle (getAccounts o) w) = Ok accounts →
  accounts ≠ [] →
  run handle (signIn o p) w = run handle (getAccounts o) w ∧
  res (run handle (signIn o p) w) = Ok accounts ∧
  Forall (λ ev, is_handshake (event_call ev) = false)
    (trace (run handle (signIn o p) w)).
Proof.
  intros Hres Hne.
  assert (Heq : run handle (signIn o p) w = run handle (getAccounts o) w).
  { unfold signIn. rewrite run_bind. cbv zeta. rewrite Hres.
    destruct accounts as [| a rest]; [done |]. cbn -[getAccounts].
    rewrite app_nil_r. destruct (run handle (getAccounts o) w); cbn in *.
    by rewrite Hres. }
  rewrite Heq. split; [done |]. split; [done |].
  apply getAccounts_no_handshake.
Qed.

(** With nobody signed in, [signIn] does run the handshake. *)
Lemma signIn_signed_out (p : SignInParams) (w : W) :
  res (run handle (getAccounts o) w) = Ok [] →
  ∃ r, Called (wallet_requestSignIn p) r ∈ trace (run handle (signIn o p) w).
Proof.
  intros Hres. unfold signIn. rewrite run_bind. cbv zeta. rewrite Hres.
  cbn -[getAccounts].
  destruct (handle (wallet_requestSignIn p) _) as [[[] | e] w1] eqn:Hreq.
  - exists (Ok ()). cbn -[getAccounts]. rewrite elem_of_app. right. left.
  - exists (Err e). cbn. rewrite elem_of_app. right. left.
Qed.

(** Signing out when nobody is signed in does nothing. *)
Lemma signOut_signed_out (w w1 : W) :
  handle wallet_isSignedIn w = (Ok false, w1) →
  run handle signOut w =
    {| res := Ok (); world := w1;
       trace := [Called wallet_isSignedIn (Ok false)] |}.
Proof. intros H. unfold signOut. cbn. by rewrite H. Qed.

End Session.

(** C6, as stated, fails: signed in with a signer that has no key,
    [getAccounts] returns one record with an empty publicKey, not the empty
    sequence. *)
Lemma getAccounts_keyless_not_empty :
  fst (Demo.handle
         (signer_getPublicKey (ext := Demo.ext) () "alice.testnet" "testnet")
         Demo.keyless) = Ok None ∧
  res (run Demo.handle (getAccounts Demo.options) Demo.keyless)
    = Ok [ {| accountId := "alice.testnet"; publicKey := "" |} ] ∧
  res (run Demo.handle (getAccounts Demo.options) Demo.keyless) ≠ Ok [].
Proof. repeat split; done. Qed.

Lemma getAccounts_accounts_witness :
  let out := run Demo.handle (getAccounts Demo.options) Demo.keyless in
  ("alice.testnet" = "" ∨ Some (Demo.the_account Demo.keyless) = None →
     out = {| res := Ok []; world := Demo.keyless;
              trace := [Called wallet_getAccountId (Ok "alice.testnet");
                        Called wallet_account
                          (Ok (Some (Demo.the_account Demo.keyless)))] |}) ∧
  (∀ a key w3,
     "alice.testnet" ≠ "" → Some (Demo.the_account Demo.keyless) = Some a →
     Demo.handle (signer_getPublicKey (conn_signer a) (acct_accountId a)
                    (networkId (options_network Demo.options))) Demo.keyless
       = (Ok key, w3) →
     res out = Ok [ {| accountId := "alice.testnet";
                       publicKey := match key with
                                    | Some pk => PublicKey_toString pk
                                    | None => ""
                                    end |} ] ∧
     world out = w3) ∧
  (∀ e, res out = Err e → ∃ c, last (trace out) = Some (Called c (Err e))).
Proof.
  apply (getAccounts_accounts Demo.handle Demo.options
           Demo.keyless Demo.keyless Demo.keyless "alice.testnet"
           (Some (Demo.the_account Demo.keyless))); reflexivity.
Defined.

Lemma signIn_idempotent_witness :
  let p := {| si_contractId := "social.near"; si_methodNames := None;
              si_successUrl := None; si_failureUrl := None;
              si_email := None; si_accountId := None;
              si_isRecovery := None |} in
  run Demo.handle (signIn Demo.options p) Demo.signed_in
    = run Demo.handle (getAccounts Demo.options) Demo.signed_in ∧
  res (run Demo.handle (signIn Demo.options p) Demo.signed_in)
    = Ok [ {| accountId := "alice.testnet";
              publicKey := "ed25519:6E8sCci9badyRkXb3JoRpBj5p8C6Tw41ELDZoiihKEtp" |} ] ∧
  Forall (λ ev, is_handshake (event_call ev) = false)
    (trace (run Demo.handle (signIn Demo.options p) Demo.signed_in)).
Proof.
  intros p.
  apply (signIn_idempotent Demo.handle Demo.options p Demo.signed_in);
    [reflexivity | discriminate].
Defined.

(** ** Dispatch: [signAndSendTransaction] *)

Section Dispatch.
Context `{ext : External} {W : Type}.
Variable handle : ∀ c : Call, W → result (Reply c) * W.
Variable o : FactoryOptions.

(** The runs of [signAndSendTransaction]: the account is resolved, a delegate
    is signed, the delegate is posted; a collaborator that fails ends the
    run. *)
Lemma signAndSendTransaction_runs (t : Transaction) (w : W) :
  let opts := {| sd_actions := map createAction (actions t);
                 blockHeightTtl := 60;
                 sd_receiverId := receiverId t |} in
  let out := run handle (signAndSendTransaction o t) w in
  (∃ e, trace out = [Called wallet_account (Err e)] ∧ res out = Err e) ∨
  (trace out = [Called wallet_account (Ok None)] ∧
   res out = Err (TypeError "signedDelegate")) ∨
  (∃ a e, trace out = [Called wallet_account (Ok (Some a));
                       Called (account_signedDelegate a opts) (Err e)] ∧
          res out = Err e) ∨
  (∃ a sd r, trace out = [Called wallet_account (Ok (Some a));
                          Called (account_signedDelegate a opts) (Ok sd);
                          Called (fetch (relayerUrl o) (relayRequest sd)) r] ∧
             res out = match r with Ok _ => Ok () | Err e => Err e end).
Proof.
  intros opts out. subst out. unfold signAndSendTransaction. cbn.
  destruct (handle wallet_account w) as [[[a |] | e] w1]; cbn.
  - fold opts.
    destruct (handle (account_signedDelegate a opts) w1) as [[sd | e] w2]; cbn.
    + do 3 right. exists a, sd.
      destruct (handle (fetch (relayerUrl o) (relayRequest sd)) w2)
        as [[r | e] w3]; cbn.
      * by exists (Ok r).
      * by exists (Err e).
    + do 2 right. left. by exists a, e.
  - right. by left.
  - left. by exists e.
Qed.

(** C4: every run of [signAndSendTransaction] follows the one delegated-relay
    path, cut short only by a collaborator that fails: resolve the account,
    build a signed delegate from the given actions and receiver with
    blockHeightTtl 60, hand it to the relay, that is POST to the relay URL
    the JSON array of the bytes of that very delegate.  A call that returns
    normally went all the way to the relay with the delegate it built, and no
    run makes any call of the transaction assembler: there is no direct
    submission. *)
Theorem signAndSendTransaction_delegated (t : Transaction) (w : W) :
  let opts := {| sd_actions := map createAction (actions t);
                 blockHeightTtl := 60;
                 sd_receiverId := receiverId t |} in
  let post := λ sd : SignedDelegate,
    fetch (relayerUrl o)
      {| method := "POST"; mode := "cors";
         body := JSON_stringify (Array_from (encodeSignedDelegate sd));
         headers := [("Content-Type", "application/json")] |} in
  let out := run handle (signAndSendTransaction o t) w in
  ((∃ e, trace out = [Called wallet_account (Err e)] ∧ res out = Err e) ∨
   (trace out = [Called wallet_account (Ok None)] ∧
    res out = Err (TypeError "signedDelegate")) ∨
   (∃ a e, trace out = [Called wallet_account (Ok (Some a));
                        Called (account_signedDelegate a opts) (Err e)] ∧
           res out = Err e) ∨
   (∃ a sd r, trace out = [Called wallet_account (Ok (Some a));
                           Called (account_signedDelegate a opts) (Ok sd);
                           Called (post sd) r] ∧
              res out = match r with Ok _ => Ok () | Err e => Err e end)) ∧
  (res out = Ok () →
   ∃ a sd response,
     trace out = [Called wallet_account (Ok (Some a));
                  Called (account_signedDelegate a opts) (Ok sd);
                  Called (post sd) (Ok response)]) ∧
  Forall (λ ev, is_assembly (event_call ev) = false) (trace out).
Proof.
  intros opts post out. pose proof (signAndSendTransaction_runs t w) as Hruns.
  cbv zeta in Hruns. fold opts out in Hruns.
  split; [exact Hruns |]. split.
  - intros Hok.
    destruct Hruns
      as [(e & _ & He) | [[_ He] | [(a & e & _ & He) | (a & sd & r & Htr & Hr)]]];
      try congruence.
    destruct r as [response | e]; [| congruence].
    exists a, sd, response. exact Htr.
  - destruct Hruns
      as [(e & -> & _) | [[-> _] | [(a & e & -> & _) | (a & sd & r & -> & _)]]];
      by repeat constructor.
Qed.

(** C5: once the delegate is signed, the one request made is a POST to the
    relay URL, mode cors, Content-Type application/json, whose body is the
    JSON array of the bytes of [encodeSignedDelegate]; whatever response the
    relay gives, the operation returns [undefined]; it fails only when
    [fetch] itself rejects. *)
Theorem signAndSendTransaction_relay (t : Transaction) (w w1 w2 : W)
    (a : ConnectedAccount) (sd : SignedDelegate) :
  let opts := {| sd_actions := map createAction (actions t);
                 blockHeightTtl := 60;
                 sd_receiverId := receiverId t |} in
  let post :=
    fetch (relayerUrl o)
      {| method := "POST"; mode := "cors";
         body := JSON_stringify (Array_from (encodeSignedDelegate sd));
         headers := [("Content-Type", "application/json")] |} in
  let out := run handle (signAndSendTransaction o t) w in
  handle wallet_account w = (Ok (Some a), w1) →
  handle (account_signedDelegate a opts) w1 = (Ok sd, w2) →
  trace out = [Called wallet_account (Ok (Some a));
               Called (account_signedDelegate a opts) (Ok sd);
               Called post (fst (handle post w2))] ∧
  world out = snd (handle post w2) ∧
  (∀ response, fst (handle post w2) = Ok response → res out = Ok ()) ∧
  (∀ e, fst (handle post w2) = Err e → res out = Err e).
Proof.
  intros opts post out Hacct Hsd. subst out.
  unfold signAndSendTransaction. cbn. rewrite Hacct. cbn. fold opts.
  rewrite Hsd. cbn. unfold relayRequest. fold post.
  destruct (handle post w2) as [[response | e] w3]; cbn.
  - split_and!; [done | done | done | congruence].
  - split_and!; [done | done | congruence | by intros e' [= ->]].
Qed.

(** C10: [signerId] is never read.  Two calls that differ only in it are the
    same program, so they make the same calls and end alike in every world;
    the delegate is requested from the account that [_state.wallet.account()]
    returned. *)
Theorem signAndSendTransaction_ignores_signerId
    (receiver : string) (acts : list SelectorAction)
    (signer1 signer2 : option string) :
  let t1 := {| signerId := signer1; receiverId := receiver; actions := acts |} in
  let t2 := {| signerId := signer2; receiverId := receiver; actions := acts |} in
  signAndSendTransaction o t1 = signAndSendTransaction o t2 ∧
  (∀ w, run handle (signAndSendTransaction o t1) w
        = run handle (signAndSendTransaction o t2) w) ∧
  (∀ w a opts r,
     Called (account_signedDelegate a opts) r
       ∈ trace (run handle (signAndSendTransaction o t1) w) →
     fst (handle wallet_account w) = Ok (Some a)).
Proof.
  intros t1 t2. split; [reflexivity |]. split; [reflexivity |].
  intros w a opts r. unfold signAndSendTransaction. cbn.
  destruct (handle wallet_account w) as [[[a0 |] | e0] w1]; cbn.
  - destruct (handle (account_signedDelegate a0 _) w1) as [[sd | e] w2]; cbn.
    + destruct (handle (fetch _ _) w2) as [[response | e] w3]; cbn;
        rewrite !elem_of_cons, elem_of_nil;
        intros [[=] | [[= -> _] | [[=] | []]]]; done.
    + rewrite !elem_of_cons, elem_of_nil.
      intros [[=] | [[= -> _] | []]]; done.
  - rewrite elem_of_cons, elem_of_nil. intros [[=] | []].
  - rewrite elem_of_cons, elem_of_nil. intros [[=] | []].
Qed.

End Dispatch.

(** A payment to bob.near from a signed-in session: account, delegate,
    relay, the body posted being the bytes of the delegate for bob.near. *)
Lemma signAndSendTransaction_delegated_witness :
  let t := Demo.pay "bob.near" 1 in
  let out := run Demo.handle (signAndSendTransaction Demo.options t)
               Demo.signed_in in
  ∃ a sd response,
    trace out =
      [Called wallet_account (Ok (Some a));
       Called (account_signedDelegate a
                 {| sd_actions := map createAction (actions t);
                    blockHeightTtl := 60;
                    sd_receiverId := receiverId t |}) (Ok sd);
       Called (fetch (relayerUrl Demo.options)
                 {| method := "POST"; mode := "cors";
                    body := JSON_stringify
                              (Array_from (encodeSignedDelegate sd));
                    headers := [("Content-Type", "application/json")] |})
         (Ok response)].
Proof.
  intros t out.
  exact (proj1 (proj2 (signAndSendTransaction_delegated Demo.handle
                         Demo.options t Demo.signed_in)) eq_refl).
Defined.

(** The same payment under two signer ids. *)
Lemma signAndSendTransaction_ignores_signerId_witness :
  run Demo.handle
    (signAndSendTransaction Demo.options
       (Demo.pay_as "alice.testnet" "bob.near" 1)) Demo.signed_in
  = run Demo.handle
      (signAndSendTransaction Demo.options
         (Demo.pay_as "mallory.testnet" "bob.near" 1)) Demo.signed_in.
Proof.
  exact (proj1 (proj2 (signAndSendTransaction_ignores_signerId
                         Demo.handle Demo.options "bob.near"
                         [Demo.Transfer 1] (Some "alice.testnet")
                         (Some "mallory.testnet"))) Demo.signed_in).
Defined.

(** The relay answers 500 and the call still returns normally, the body
    posted being the JSON array of the delegate's bytes. *)
Lemma signAndSendTransaction_relay_witness :
  let t := Demo.pay "bob.near" 1 in
  let out := run Demo.handle (signAndSendTransaction Demo.options t)
               Demo.relay_failing in
  res out = Ok () ∧
  Demo.relayed (world out) = ["[98,111,98,46,110,101,97,114]"].
Proof.
  intros t out.
  pose proof (signAndSendTransaction_relay Demo.handle Demo.options t
                Demo.relay_failing Demo.relay_failing Demo.relay_failing
                (Demo.the_account Demo.relay_failing)
                {| Demo.d_sender := "alice.testnet";
                   Demo.d_receiver := "bob.near";
                   Demo.d_actions := [Demo.Transfer 1];
                   Demo.d_ttl := 60 |}
                eq_refl eq_refl) as (_ & Hworld & Hok & _).
  split.
  - exact (Hok 500 eq_refl).
  - subst out. rewrite Hworld. reflexivity.
Defined.

Example JSON_stringify_bytes :
  JSON_stringify (Array_from ["000"; "007"; "098"; "255"]%byte) = "[0,7,98,255]" ∧
  JSON_stringify (Array_from []) = "[]".
Proof. split; reflexivity. Qed.

(** ** Batches: [signAndSendTransactions] *)

Section Batch.
Context `{ext : External} {W : Type}.
Variable handle : ∀ c : Call, W → result (Reply c) * W.
Variable o : FactoryOptions.

Lemma signAndSendTransactions_cons (t : Transaction)
    (rest : list Transaction) (w : W) :
  run handle (signAndSendTransactions o (t :: rest)) w =
    let first := run handle (signAndSendTransaction o t) w in
    match res first with
    | Ok _ =>
        let others := run handle (signAndSendTransactions o rest) (world first) in
        {| res := res others; world := world others;
           trace := trace first ++ trace others |}
    | Err e => {| res := Err e; world := world first; trace := trace first |}
    end.
Proof.
  cbn [signAndSendTransactions]. rewrite run_bind. by destruct t.
Qed.

(** The loop over a concatenation: the second part starts where the first
    ended, and only if the first ended well. *)
Lemma signAndSendTransactions_app (l1 l2 : list Transaction) (w : W) :
  run handle (signAndSendTransactions o (l1 ++ l2)) w =
    let o1 := run handle (signAndSendTransactions o l1) w in
    match res o1 with
    | Ok _ =>
        let o2 := run handle (signAndSendTransactions o l2) (world o1) in
        {| res := res o2; world := world o2; trace := trace o1 ++ trace o2 |}
    | Err e => {| res := Err e; world := world o1; trace := trace o1 |}
    end.
Proof.
  revert w. induction l1 as [| t l1 IH]; intros w.
  - cbn. by destruct (run handle (signAndSendTransactions o l2) w).
  - rewrite <- app_comm_cons, !signAndSendTransactions_cons. cbv zeta.
    destruct (res (run handle (signAndSendTransaction o t) w)); [| done].
    rewrite IH. cbv zeta.
    destruct (res (run handle (signAndSendTransactions o l1) _)); cbn;
      by rewrite ?app_assoc.
Qed.

(** C2: the transactions are dispatched one after the other, in array order,
    each one starting in the world the previous one left after its relay
    call; when the transaction after [sent] fails, the batch ends there with
    that error, whatever [rest] holds: nothing of [rest] is attempted. *)
Theorem signAndSendTransactions_sequential (sent : list Transaction)
    (t : Transaction) (rest : list Transaction) (w : W) :
  let before := run handle (signAndSendTransactions o sent) w in
  let this := run handle (signAndSendTransaction o t) (world before) in
  let batch := run handle (signAndSendTransactions o (sent ++ t :: rest)) w in
  res before = Ok () →
  match res this with
  | Err e =>
      batch = {| res := Err e; world := world this;
                 trace := trace before ++ trace this |}
  | Ok _ =>
      let others := run handle (signAndSendTransactions o rest) (world this) in
      batch = {| res := res others; world := world others;
                 trace := trace before ++ trace this ++ trace others |}
  end.
Proof.
  intros before this batch Hbefore. subst batch.
  rewrite signAndSendTransactions_app. cbv zeta. fold before. rewrite Hbefore.
  rewrite signAndSendTransactions_cons. cbv zeta. fold this.
  destruct (res this); cbn; done.
Qed.

(** The batch does not read [signerId] either. *)
Lemma signAndSendTransactions_ignores_signerId (l1 l2 : list Transaction) :
  (λ t, (receiverId t, actions t)) <$> l1
    = (λ t, (receiverId t, actions t)) <$> l2 →
  signAndSendTransactions o l1 = signAndSendTransactions o l2.
Proof.
  revert l2. induction l1 as [| t1 l1 IH]; intros [| t2 l2]; try done.
  cbn. intros [= Hr Ha Hrest]. rewrite Hr, Ha. by rewrite (IH l2).
Qed.

End Batch.

(** ** [Promise.all] *)

Section ObligationFacts.
Context `{ext : External} {A : Type}.
Variable R : ∀ c : Call, result (Reply c) → Prop.

Lemma ensures_always (Q : A → Prop) (p : Prog A) :
  (∀ a, Q a) → ensures R Q p.
Proof. intros HQ. induction p; cbn; auto. Qed.

Lemma task_ensures_start (Q : A → Prop) (p : Prog A) :
  ensures R Q p → task_ensures R Q (start p).
Proof. by destruct p. Qed.

Lemma task_finishes_start (m : nat) (p : Prog A) :
  finishes R m p → task_finishes R m (start p).
Proof. by destruct p. Qed.

Lemma finishes_mono (m m' : nat) (p : Prog A) :
  (m ≤ m')%nat → finishes R m p → finishes R m' p.
Proof.
  revert m m'. induction p as [a | e | c k IH]; intros m m' Hle; cbn; [done.. |].
  destruct m as [| m]; [done |]. destruct m' as [| m']; [lia |].
  intros [Hrej Hk]. split; [done |]. intros x Hx.
  apply (IH x m m'); [lia | by apply Hk].
Qed.

Lemma task_finishes_mono (m m' : nat) (t : Task A) :
  (m ≤ m')%nat → task_finishes R m t → task_finishes R m' t.
Proof.
  destruct t as [c k | a | e]; cbn; [| done..].
  destruct m as [| m]; [done |]. destruct m' as [| m']; [lia |].
  intros Hle [Hrej Hk]. split; [done |]. intros x Hx.
  apply (finishes_mono m m'); [lia | by apply Hk].
Qed.

End ObligationFacts.

Section PoolFacts.
Context `{ext : External} {W A : Type}.
Variable handle : ∀ c : Call, W → result (Reply c) * W.
Variable R : ∀ c : Call, result (Reply c) → Prop.
Hypothesis handle_R : ∀ c w, R c (fst (handle c w)).

Implicit Types (p : Pool W A) (sched : list nat).

Lemma schedule_cons i sched p :
  schedule handle (i :: sched) p = schedule handle sched (resume handle p i).
Proof. reflexivity. Qed.

Lemma resume_length p i : length (tasks (resume handle p i)) = length (tasks p).
Proof.
  unfold resume. destruct (tasks p !! i) as [[c k | a | e] |]; try done.
  destruct (handle c (pool_world p)) as [r w1]. cbn. apply length_insert.
Qed.

Lemma schedule_length sched p :
  length (tasks (schedule handle sched p)) = length (tasks p).
Proof.
  revert p. induction sched as [| i sched IH]; intros p; cbn; [done |].
  unfold schedule in IH. by rewrite IH, resume_length.
Qed.

(** A settled promise stays as it is. *)
Lemma resume_settled p i j t :
  tasks p !! j = Some t → (∀ c k, t ≠ Running c k) →
  tasks (resume handle p i) !! j = Some t.
Proof.
  intros Hj Ht. unfold resume.
  destruct (tasks p !! i) as [[c k | a | e] |] eqn:Hi; try done.
  destruct (handle c (pool_world p)) as [r w1]. cbn.
  destruct (decide (i = j)) as [-> | Hne].
  - rewrite Hj in Hi. injection Hi as ->. by destruct (Ht c k).
  - by rewrite list_lookup_insert_ne.
Qed.

Lemma resume_other p i j :
  i ≠ j → tasks (resume handle p i) !! j = tasks p !! j.
Proof.
  intros Hne. unfold resume.
  destruct (tasks p !! i) as [[c k | a | e] |]; try done.
  destruct (handle c (pool_world p)) as [r w1]. cbn.
  by rewrite list_lookup_insert_ne.
Qed.

(** The first promise to throw gives [Promise.all] its reason. *)
Lemma resume_first_rejection p i c (k : Reply c → Prog A) x w1 e :
  tasks p !! i = Some (Running c k) →
  rejected p = None →
  handle c (pool_world p) = (Ok x, w1) →
  k x = Throw e →
  rejected (resume handle p i) = Some e.
Proof.
  intros Hi Hrej Hc Hk. unfold resume. rewrite Hi, Hc. cbn.
  by rewrite Hrej, Hk.
Qed.

(** The reason [Promise.all] rejects with, once set, is kept. *)
Lemma resume_rejected p i e :
  rejected p = Some e → rejected (resume handle p i) = Some e.
Proof.
  intros He. unfold resume.
  destruct (tasks p !! i) as [[c k | a | e'] |]; try done.
  destruct (handle c (pool_world p)) as [r w1]. cbn. by rewrite He.
Qed.

Lemma schedule_rejected sched p e :
  rejected p = Some e → rejected (schedule handle sched p) = Some e.
Proof.
  revert p. induction sched as [| i sched IH]; intros p He; cbn; [done |].
  apply IH. by apply resume_rejected.
Qed.

Lemma resume_ensures (Q : nat → A → Prop) p i :
  (∀ j t, tasks p !! j = Some t → task_ensures R (Q j) t) →
  ∀ j t, tasks (resume handle p i) !! j = Some t → task_ensures R (Q j) t.
Proof.
  intros Hinv j t. unfold resume.
  destruct (tasks p !! i) as [[c k | a | e] |] eqn:Hi; try apply Hinv.
  pose proof (handle_R c (pool_world p)) as Hr.
  destruct (handle c (pool_world p)) as [r w1]. cbn in *.
  destruct (decide (i = j)) as [-> | Hne].
  - rewrite list_lookup_insert_eq by (by eapply lookup_lt_Some).
    intros [= <-]. destruct r as [x | e]; [| done].
    apply task_ensures_start. by apply (Hinv j _ Hi).
  - rewrite list_lookup_insert_ne by done. apply Hinv.
Qed.

Lemma schedule_ensures (Q : nat → A → Prop) sched p :
  (∀ j t, tasks p !! j = Some t → task_ensures R (Q j) t) →
  ∀ j t, tasks (schedule handle sched p) !! j = Some t →
         task_ensures R (Q j) t.
Proof.
  revert p. induction sched as [| i sched IH]; intros p Hinv; cbn; [done |].
  apply IH. by apply resume_ensures.
Qed.

Lemma promise_all_fulfilled p out :
  promise_all p = Some (Ok out) →
  Forall2 (λ t a, t = Fulfilled a) (tasks p) out.
Proof.
  unfold promise_all. destruct (rejected p); [done |].
  destruct (mapM fulfilment_of (tasks p)) as [vs |] eqn:Hvs; [| done].
  intros [= <-]. apply mapM_Some_1 in Hvs.
  eapply Forall2_impl; [exact Hvs |].
  intros [c k | a | e] b; cbn; congruence.
Qed.

(** What [Promise.all] fulfils with: one value per promise, in input order,
    each with the property its promise ensures. *)
Lemma promise_all_ensures (Q : nat → A → Prop) sched p out :
  (∀ j t, tasks p !! j = Some t → task_ensures R (Q j) t) →
  promise_all (schedule handle sched p) = Some (Ok out) →
  length out = length (tasks p) ∧ ∀ j a, out !! j = Some a → Q j a.
Proof.
  intros Hinv Hall. apply promise_all_fulfilled in Hall. split.
  - rewrite <- (Forall2_length _ _ _ Hall). apply schedule_length.
  - intros j a Ha.
    destruct (Forall2_lookup_r _ _ _ _ _ Hall Ha) as (t & Ht & ->).
    exact (schedule_ensures Q sched p Hinv j _ Ht).
Qed.

Lemma schedule_settled sched p j t :
  tasks p !! j = Some t → (∀ c k, t ≠ Running c k) →
  tasks (schedule handle sched p) !! j = Some t.
Proof.
  revert p. induction sched as [| i sched IH]; intros p Hj Ht; cbn; [done |].
  apply IH; [| done]. by apply resume_settled.
Qed.

(** Resumed as often as it has calls to await, every promise is fulfilled and
    so is [Promise.all]. *)
Lemma schedule_finishes sched p :
  rejected p = None →
  (∀ j t, tasks p !! j = Some t →
          task_finishes R (count_occ Nat.eq_dec sched j) t) →
  ∃ out, promise_all (schedule handle sched p) = Some (Ok out).
Proof.
  revert p. induction sched as [| i sched IH]; intros p Hrej Hinv.
  - cbn. unfold promise_all. rewrite Hrej.
    destruct (mapM_is_Some_2 fulfilment_of (tasks p)) as [out ->];
      [| by exists out].
    apply Forall_lookup. intros j t Hj. specialize (Hinv j t Hj).
    destruct t; cbn in *; by eauto.
  - cbn [schedule foldl]. apply IH.
    + unfold resume.
      destruct (tasks p !! i) as [[c k | a | e] |] eqn:Hi; try done.
      pose proof (handle_R c (pool_world p)) as Hr.
      pose proof (Hinv i _ Hi) as Hfin.
      rewrite count_occ_cons_eq in Hfin by done. destruct Hfin as [Hno Hk].
      destruct (handle c (pool_world p)) as [[x | e] w1]; cbn in *;
        [| by destruct (Hno e)].
      rewrite Hrej. cbn. specialize (Hk x Hr).
      apply task_finishes_start in Hk. by destruct (start (k x)).
    + intros j t. destruct (decide (i = j)) as [<- | Hne].
      * unfold resume.
        destruct (tasks p !! i) as [[c k | a | e] |] eqn:Hi.
        -- pose proof (handle_R c (pool_world p)) as Hr.
           pose proof (Hinv i _ Hi) as Hfin.
           rewrite count_occ_cons_eq in Hfin by done.
           destruct Hfin as [Hno Hk].
           destruct (handle c (pool_world p)) as [[x | e] w1]; cbn in *;
             [| by destruct (Hno e)].
           rewrite list_lookup_insert_eq by (by eapply lookup_lt_Some).
           intros [= <-]. apply task_finishes_start. by apply Hk.
        -- rewrite Hi. by intros [= <-].
        -- rewrite Hi. intros [= <-]. by destruct (Hinv i _ Hi).
        -- by rewrite Hi.
      * rewrite resume_other by done. intros Hj.
        specialize (Hinv j t Hj). by rewrite count_occ_cons_neq in Hinv.
Qed.

(** A promise that can only reject does so the first time it is resumed. *)
Lemma schedule_doomed sched p i t :
  tasks p !! i = Some t → task_doomed R t → i ∈ sched →
  ∃ e, tasks (schedule handle sched p) !! i = Some (Rejected e).
Proof.
  revert p t. induction sched as [| j sched IH]; intros p t Hi Ht Hin.
  - by apply elem_of_nil in Hin.
  - cbn [schedule foldl]. destruct (decide (j = i)) as [-> | Hne].
    + assert (∃ e, tasks (resume handle p i) !! i = Some (Rejected e))
        as [e He].
      { unfold resume. rewrite Hi. destruct t as [c k | a | e]; [| done |].
        - pose proof (handle_R c (pool_world p)) as Hr.
          destruct (handle c (pool_world p)) as [[x | e] w1]; cbn in *.
          + destruct (Ht x Hr) as [e ->]. exists e.
            by rewrite list_lookup_insert_eq by (by eapply lookup_lt_Some).
          + exists e.
            by rewrite list_lookup_insert_eq by (by eapply lookup_lt_Some).
        - by exists e. }
      exists e. by apply schedule_settled.
    + apply (IH _ t); [by rewrite resume_other | done |].
      apply elem_of_cons in Hin as [-> | Hin]; done.
Qed.

Lemma foldl_first_rejection_Some (ts : list (Task A)) (e : Exn) :
  foldl first_rejection (Some e) ts = Some e.
Proof. induction ts as [| t ts IH]; [done | apply IH]. Qed.

Lemma foldl_first_rejection (seen : option Exn) (ts : list (Task A)) j e :
  ts !! j = Some (Rejected e) → is_Some (foldl first_rejection seen ts).
Proof.
  revert seen j. induction ts as [| t ts IH]; intros seen j; [done |].
  destruct seen as [e0 |].
  - intros _. cbn. by rewrite foldl_first_rejection_Some.
  - destruct j as [| j]; cbn.
    + intros [= ->]. cbn. by rewrite foldl_first_rejection_Some.
    + apply IH.
Qed.

Lemma foldl_first_rejection_None (ts : list (Task A)) :
  Forall (λ t, rejection_of t = None) ts →
  foldl first_rejection None ts = None.
Proof.
  induction 1 as [| t ts Ht _ IH]; [done |]. cbn. by rewrite Ht.
Qed.

Lemma spawn_notes_rejections (ps : list (Prog A)) (w : W) tr :
  notes_rejections (spawn ps w tr).
Proof. intros j e Hj. cbn in *. by eapply foldl_first_rejection. Qed.

Lemma resume_notes_rejections p i :
  notes_rejections p → notes_rejections (resume handle p i).
Proof.
  intros Hinv j e. unfold resume.
  destruct (tasks p !! i) as [[c k | a | e'] |] eqn:Hi; try apply Hinv.
  destruct (handle c (pool_world p)) as [r w1]. cbn.
  destruct (decide (i = j)) as [-> | Hne].
  - rewrite list_lookup_insert_eq by (by eapply lookup_lt_Some).
    intros [= ->]. destruct (rejected p); cbn; by eauto.
  - rewrite list_lookup_insert_ne by done. intros Hj.
    destruct (Hinv j e Hj) as [e0 ->]. by eauto.
Qed.

Lemma schedule_notes_rejections sched p :
  notes_rejections p → notes_rejections (schedule handle sched p).
Proof.
  revert p. induction sched as [| i sched IH]; intros p Hinv; cbn; [done |].
  apply IH. by apply resume_notes_rejections.
Qed.

Lemma promise_all_doomed sched (ps : list (Prog A)) w tr i t :
  map start ps !! i = Some t → task_doomed R t → i ∈ sched →
  ∃ e, promise_all (schedule handle sched (spawn ps w tr)) = Some (Err e).
Proof.
  intros Hi Ht Hin.
  destruct (schedule_doomed sched (spawn ps w tr) i t Hi Ht Hin) as [e He].
  destruct (schedule_notes_rejections sched _ (spawn_notes_rejections ps w tr)
              i e He) as [e0 He0].
  exists e0. unfold promise_all. by rewrite He0.
Qed.

End PoolFacts.

(** ** [+] on numbers *)

(** Rounding at work: up to 2^53 every integer is a number; from there on
    only every other one, then every fourth, ties going to the even
    significand; past the largest number comes Infinity. *)
Lemma to_number_rounds :
  to_number (2 ^ 53) = Int (2 ^ 53) ∧
  to_number (2 ^ 53 + 1) = Int (2 ^ 53) ∧
  to_number (2 ^ 53 + 2) = Int (2 ^ 53 + 2) ∧
  to_number (2 ^ 53 + 3) = Int (2 ^ 53 + 4) ∧
  to_number (2 ^ 54 + 2) = Int (2 ^ 54) ∧
  to_number (2 ^ 54 + 6) = Int (2 ^ 54 + 8) ∧
  to_number (- (2 ^ 53) - 1) = Int (- (2 ^ 53)) ∧
  to_number (2 ^ 1024 - 2 ^ 970 - 1) = Int (2 ^ 1024 - 2 ^ 971) ∧
  to_number (2 ^ 1024 - 2 ^ 970) = Infinity false.
Proof. split_and!; by vm_compute. Qed.

(** The safe integers are numbers. *)
Lemma to_number_safe (z : Z) :
  - MAX_SAFE_INTEGER ≤ z ≤ MAX_SAFE_INTEGER → to_number z = Int z.
Proof.
  unfold to_number, MAX_SAFE_INTEGER. intros Hz.
  destruct (Z.ltb_spec (Z.abs z) (2 ^ 53)) as [_ | Hge]; [done |].
  change (2 ^ 53) with 9007199254740992 in Hge. lia.
Qed.

(** [n + index + 1] is exact as long as it stays a safe integer. *)
Lemma js_add_safe (n : Z) (i : nat) :
  0 ≤ n → n + Z.of_nat i + 1 ≤ MAX_SAFE_INTEGER →
  js_add (js_add (JsNumber (Int n)) (Z.of_nat i)) 1
    = JsNumber (Int (n + Z.of_nat i + 1)).
Proof.
  intros Hn Hmax. cbn [js_add].
  rewrite (to_number_safe (n + Z.of_nat i))
    by (unfold MAX_SAFE_INTEGER in *; lia).
  cbn [js_add].
  by rewrite to_number_safe by (unfold MAX_SAFE_INTEGER in *; lia).
Qed.

(** On anything but a number, [+] appends the digits. *)
Lemma js_add_textual (s : string) (i : nat) :
  js_add (js_add (Textual s) (Z.of_nat i)) 1
    = Textual ((s +:+ NilZero.string_of_int (Z.to_int (Z.of_nat i))) +:+ "1").
Proof. reflexivity. Qed.

(** ** The transaction assembler: [transformTransactions] *)

Section Assembler.
Context `{ext : External} {W : Type}.
Variable handle : ∀ c : Call, W → result (Reply c) * W.

Lemma spawn_assemble_lookup account localKey (transactions : list Transaction)
    (w : W) tr j t :
  tasks (spawn (imap (assemble account localKey) transactions) w tr) !! j
    = Some t →
  ∃ tx, transactions !! j = Some tx ∧
        t = start (assemble account localKey j tx).
Proof.
  cbn. rewrite list_lookup_fmap, list_lookup_imap.
  destruct (transactions !! j) as [tx |]; [| done].
  intros [= <-]. by exists tx.
Qed.

Lemma spawn_assemble_rejected account localKey
    (transactions : list Transaction) (w : W) tr :
  rejected (spawn (imap (assemble account localKey) transactions) w tr) = None.
Proof.
  cbn. apply foldl_first_rejection_None, Forall_lookup. intros j t.
  rewrite list_lookup_fmap, list_lookup_imap.
  destruct (transactions !! j) as [tx |]; [| done]. by intros [= <-].
Qed.

Lemma spawn_assemble_length account localKey
    (transactions : list Transaction) (w : W) tr :
  length (tasks (spawn (imap (assemble account localKey) transactions) w tr))
    = length transactions.
Proof. cbn. by rewrite length_fmap, length_imap. Qed.

(** *** Nonces *)

Section Nonces.
Variable account : ConnectedAccount.
Variable localKey : option PublicKey.
Variable transactions : list Transaction.
Variable key : AccessKeyInfoView.

Lemma assemble_ensures i tx :
  transactions !! i = Some tx →
  ensures (finds_key account localKey transactions key)
    (assembled_at account transactions key i)
    (assemble account localKey i tx).
Proof.
  intros Hi x Hx. cbn in Hx.
  assert (Hkey : Ok x = Ok (Some key)).
  { apply Hx; [done | done |].
    exists tx. split; [by eapply list_elem_of_lookup_2 | done]. }
  injection Hkey as ->. cbn. intros b _.
  destruct (PublicKey_from (public_key key)) as [pk | e]; cbn; [| done].
  destruct (base_decode (hash (header b))) as [h | e]; cbn; [| done].
  split; [done |]. split; [done |]. by exists tx.
Qed.

Lemma assemble_finishes i tx :
  tx ∈ transactions →
  is_ok (PublicKey_from (public_key key)) = true →
  finishes (finds_key_and_block account localKey transactions key) 2
    (assemble account localKey i tx).
Proof.
  intros Hin Hpk.
  assert (Hfound : ∀ r, finds_key_and_block account localKey transactions key
                          (lookup_of account localKey tx) r
                        → r = Ok (Some key)).
  { intros r Hr. apply Hr; [done | done |]. by exists tx. }
  split.
  - intros e He. by apply Hfound in He.
  - intros x Hx. apply Hfound in Hx. injection Hx as ->. cbn. split.
    + intros e He. by destruct (He eq_refl eq_refl) as (b & ? & _).
    + intros b Hb. destruct (Hb eq_refl eq_refl) as (b' & [= <-] & Hdecode).
      destruct (PublicKey_from (public_key key)) as [pk | e]; [| done]. cbn.
      by destruct (base_decode (hash (header b))).
Qed.

End Nonces.

Lemma fmap_eq_pointwise {A B C} (f : A → C) (g : B → C)
    (out : list A) (l : list B) :
  length out = length l →
  (∀ j a, out !! j = Some a → ∃ b, l !! j = Some b ∧ f a = g b) →
  f <$> out = g <$> l.
Proof.
  intros Hlen Hpt. apply list_eq. intros j. rewrite !list_lookup_fmap.
  destruct (out !! j) as [a |] eqn:Ha; cbn.
  - by destruct (Hpt j a Ha) as (b & -> & ->).
  - apply lookup_ge_None in Ha. rewrite Hlen in Ha.
    apply lookup_ge_None in Ha. by rewrite Ha.
Qed.

(** When every lookup of the batch finds [key], what [transformTransactions]
    fulfils with is one transaction per intended transaction, each as
    [assembled_at] says. *)
Lemma transformTransactions_assembled_at (transactions : list Transaction)
    (w : W) (key : AccessKeyInfoView) (account : ConnectedAccount)
    (localKey : option PublicKey) (sched : list nat)
    (out : list NearTransaction) :
  res (run handle localSigner w) = Ok (account, localKey) →
  (∀ tx w', tx ∈ transactions →
            fst (handle (lookup_of account localKey tx) w') = Ok (Some key)) →
  assembled (transformTransactions handle sched transactions w)
    = Some (Ok out) →
  length out = length transactions ∧
  ∀ j ntx, out !! j = Some ntx → assembled_at account transactions key j ntx.
Proof.
  intros Hsigner Hlookup. unfold transformTransactions. rewrite Hsigner.
  cbn [assembled]. intros Hall.
  apply (promise_all_ensures handle
           (finds_key account localKey transactions key)) with
      (Q := assembled_at account transactions key) in Hall.
  - by rewrite spawn_assemble_length in Hall.
  - intros [] w'; try exact I. cbn.
    intros -> -> (tx & Hin & -> & ->). by apply Hlookup.
  - intros j t Hj.
    destruct (spawn_assemble_lookup _ _ _ _ _ _ _ Hj) as (tx & Htx & ->).
    apply task_ensures_start. by apply assemble_ensures.
Qed.

(** ... and it does fulfil, once every promise has been resumed twice, when
    the block fetches and the two decoders succeed. *)
Lemma transformTransactions_fulfils (transactions : list Transaction)
    (w : W) (key : AccessKeyInfoView) (account : ConnectedAccount)
    (localKey : option PublicKey) (sched : list nat) :
  res (run handle localSigner w) = Ok (account, localKey) →
  (∀ tx w', tx ∈ transactions →
            fst (handle (lookup_of account localKey tx) w') = Ok (Some key)) →
  is_ok (PublicKey_from (public_key key)) = true →
  (∀ w', ∃ b,
     fst (handle (provider_block (conn_provider account) "final") w') = Ok b ∧
     is_ok (base_decode (hash (header b))) = true) →
  (∀ i, (i < length transactions)%nat →
        (2 ≤ count_occ Nat.eq_dec sched i)%nat) →
  ∃ out, assembled (transformTransactions handle sched transactions w)
         = Some (Ok out).
Proof.
  intros Hsigner Hlookup Hpk Hblock Hsched.
  unfold transformTransactions. rewrite Hsigner. cbn [assembled].
  apply (schedule_finishes handle
           (finds_key_and_block account localKey transactions key)).
  - intros [] w'; try exact I; cbn.
    + intros -> -> (tx & Hin & -> & ->). by apply Hlookup.
    + intros -> ->. apply Hblock.
  - apply spawn_assemble_rejected.
  - intros j t Hj.
    assert (j < length transactions)%nat as Hlt.
    { rewrite <- (spawn_assemble_length account localKey transactions
                   (world (run handle localSigner w))
                   (trace (run handle localSigner w))).
      by eapply lookup_lt_Some. }
    destruct (spawn_assemble_lookup _ _ _ _ _ _ _ Hj) as (tx & Htx & ->).
    apply (task_finishes_mono _ 2); [by apply Hsched |].
    apply task_finishes_start, assemble_finishes; [| done].
    by eapply list_elem_of_lookup_2.
Qed.

(** *** A missing access key *)

Section MissingKey.
Variable account : ConnectedAccount.
Variable localKey : option PublicKey.
Variable tx : Transaction.

Hypothesis lookup_none :
  ∀ w, fst (handle (lookup_of account localKey tx) w) = Ok None.

Lemma handle_finds_nothing c w :
  finds_nothing account localKey tx c (fst (handle c w)).
Proof.
  destruct c; try exact I. cbn. intros -> -> -> ->. apply lookup_none.
Qed.

Lemma assemble_doomed i :
  task_doomed (finds_nothing account localKey tx)
    (start (assemble account localKey i tx)).
Proof.
  intros x Hx. cbn in Hx.
  assert (Hnone : Ok x = Ok None) by by apply Hx.
  injection Hnone as ->. by exists (no_matching_key tx).
Qed.

Lemma assemble_missing_key i w :
  run handle (assemble account localKey i tx) w =
    {| res := Err (no_matching_key tx);
       world := snd (handle (lookup_of account localKey tx) w);
       trace := [Called (lookup_of account localKey tx) (Ok None)] |}.
Proof.
  pose proof (lookup_none w) as Hnone. unfold assemble. cbn.
  fold (lookup_of account localKey tx).
  destruct (handle (lookup_of account localKey tx) w) as [r w1].
  cbn in Hnone. by subst r.
Qed.

End MissingKey.

(** C3: when the access-key lookup for the transaction at index [i] returns
    none, its callback throws "Failed to find matching key for transaction
    sent to <receiver>" right after the lookup, before any block is fetched
    or transaction built; [transformTransactions] then never fulfils with an
    array, rejects once that callback has been resumed, and rejects with this
    very error when that callback is the first one resumed. *)
Theorem transformTransactions_missing_key (transactions : list Transaction)
    (w : W) (account : ConnectedAccount) (localKey : option PublicKey)
    (i : nat) (tx : Transaction) :
  let lookup :=
    account_accessKeyForTransaction account (receiverId tx)
      (map createAction (actions tx)) localKey in
  let failure :=
    Error ("Failed to find matching key for transaction sent to "
           +:+ receiverId tx) in
  res (run handle localSigner w) = Ok (account, localKey) →
  transactions !! i = Some tx →
  (∀ w', fst (handle lookup w') = Ok None) →
  (∀ w', res (run handle (assemble account localKey i tx) w') = Err failure ∧
         trace (run handle (assemble account localKey i tx) w')
           = [Called lookup (Ok None)]) ∧
  (∀ sched out,
     assembled (transformTransactions handle sched transactions w)
       ≠ Some (Ok out)) ∧
  (∀ sched, i ∈ sched →
     ∃ e, assembled (transformTransactions handle sched transactions w)
          = Some (Err e)) ∧
  (∀ sched,
     assembled (transformTransactions handle (i :: sched) transactions w)
       = Some (Err failure)).
Proof.
  intros lookup failure Hsigner Hi Hnone.
  pose proof (handle_finds_nothing account localKey tx Hnone) as HR.
  split_and!.
  - intros w'. by rewrite (assemble_missing_key account localKey tx Hnone).
  - intros sched out. unfold transformTransactions. rewrite Hsigner.
    cbn [assembled]. intros Hall.
    apply (promise_all_ensures handle _ HR) with (Q := λ j _, j ≠ i) in Hall.
    + destruct Hall as [Hlen Hout]. rewrite spawn_assemble_length in Hlen.
      destruct (lookup_lt_is_Some_2 out i) as [ntx Hntx].
      { rewrite Hlen. by eapply lookup_lt_Some. }
      by apply (Hout i ntx Hntx).
    + intros j t Hj.
      destruct (spawn_assemble_lookup _ _ _ _ _ _ _ Hj) as (tx' & Htx' & ->).
      apply task_ensures_start. destruct (decide (j = i)) as [-> | Hne].
      * rewrite Hi in Htx'. injection Htx' as <-.
        intros x Hx. cbn in Hx.
        assert (Hx' : Ok x = Ok None) by by apply Hx.
        by injection Hx' as ->.
      * by apply ensures_always.
  - intros sched Hin. unfold transformTransactions. rewrite Hsigner.
    cbn [assembled].
    apply (promise_all_doomed handle _ HR) with
        (i := i) (t := start (assemble account localKey i tx)); [| | done].
    + by rewrite list_lookup_fmap, list_lookup_imap, Hi.
    + by apply assemble_doomed.
  - intros sched. unfold transformTransactions. rewrite Hsigner.
    cbn [assembled]. rewrite schedule_cons. unfold promise_all.
    erewrite schedule_rejected; [done |].
    set (w0 := world (run handle localSigner w)).
    eapply (resume_first_rejection handle _ i lookup _ None
              (snd (handle lookup w0))).
    + cbn. rewrite list_lookup_fmap, list_lookup_imap, Hi. reflexivity.
    + apply spawn_assemble_rejected.
    + cbn [pool_world spawn]. specialize (Hnone w0).
      destruct (handle lookup w0) as [r w1]. cbn in *. by subst r.
    + reflexivity.
Qed.

End Assembler.

(** Three payments against a ledger whose keys carry the nonce [v]: whatever
    the order in which the promises are resumed, the nonces assembled are
    [v + 0 + 1], [v + 1 + 1] and [v + 2 + 1], as [+] computes them. *)
Lemma three_payments_nonces (v : JsValue) (sched : list nat)
    (out : list NearTransaction) :
  assembled (transformTransactions (Demo.handle_with_nonce v) sched
               [Demo.pay "a.near" 1; Demo.pay "b.near" 2; Demo.pay "c.near" 3]
               Demo.signed_in) = Some (Ok out) →
  tx_nonce <$> out = [js_add (js_add v 0) 1; js_add (js_add v 1) 1;
                      js_add (js_add v 2) 1].
Proof.
  intros Hall.
  destruct (transformTransactions_assembled_at (Demo.handle_with_nonce v)
              [Demo.pay "a.near" 1; Demo.pay "b.near" 2; Demo.pay "c.near" 3]
              Demo.signed_in
              (Demo.ledger_key_with v (Demo.stored_key Demo.signed_in))
              (Demo.the_account Demo.signed_in)
              (Demo.stored_key Demo.signed_in) sched out eq_refl)
    as [Hlen Hout]; [| exact Hall |].
  { intros tx w' Hin.
    repeat (apply elem_of_cons in Hin as [-> | Hin]); try reflexivity.
    by apply elem_of_nil in Hin. }
  destruct out as [| t0 [| t1 [| t2 [| t3 out]]]]; try discriminate Hlen.
  destruct (Hout 0%nat t0 eq_refl) as [H0 _].
  destruct (Hout 1%nat t1 eq_refl) as [H1 _].
  destruct (Hout 2%nat t2 eq_refl) as [H2 _].
  cbn in *. by rewrite H0, H1, H2.
Qed.

(** C1: the nonces [transformTransactions] assigns are not [n + i + 1] for
    every nonce [n] an access key can carry.  Three payments, every lookup
    resolving to the same access key; the batch fulfils once each promise
    has been resumed twice, and whatever the order of the resumptions: when
    the nonce of the key is the BN of value 5, which [+] converts to the
    string "5", the transactions carry "501", "511" and "521", where 6, 7
    and 8 were meant; when it is the number 2^53 - 1, all three carry 2^53,
    where 2^53, 2^53 + 1 and 2^53 + 2 were meant. *)
Theorem transformTransactions_nonces_diverge :
  let batch :=
    [Demo.pay "a.near" 1; Demo.pay "b.near" 2; Demo.pay "c.near" 3] in
  let with_nonce := λ v sched,
    assembled (transformTransactions (Demo.handle_with_nonce v) sched batch
                 Demo.signed_in) in
  (∃ out, with_nonce (Textual "5") [2; 0; 1; 1; 0; 2]%nat = Some (Ok out)) ∧
  (∀ sched out,
     with_nonce (Textual "5") sched = Some (Ok out) →
     tx_nonce <$> out = [Textual "501"; Textual "511"; Textual "521"]) ∧
  (∃ out, with_nonce (JsNumber (Int 9007199254740991))
            [2; 0; 1; 1; 0; 2]%nat = Some (Ok out)) ∧
  (∀ sched out,
     with_nonce (JsNumber (Int 9007199254740991)) sched = Some (Ok out) →
     tx_nonce <$> out = [JsNumber (Int 9007199254740992);
                         JsNumber (Int 9007199254740992);
                         JsNumber (Int 9007199254740992)]).
Proof.
  intros batch with_nonce. split_and!.
  - eexists. reflexivity.
  - intros sched out Hall.
    by rewrite (three_payments_nonces (Textual "5") sched out Hall).
  - eexists. reflexivity.
  - intros sched out Hall.
    rewrite (three_payments_nonces (JsNumber (Int 9007199254740991))
               sched out Hall).
    by vm_compute.
Qed.

(** A batch whose second transaction cannot be signed: the first is relayed,
    the third is never attempted. *)
Lemma signAndSendTransactions_sequential_witness :
  let batch :=
    run Demo.handle
      (signAndSendTransactions Demo.options
         [Demo.pay "bob.near" 1; Demo.pay "unknown.testnet" 2;
          Demo.pay "carol.near" 3])
      Demo.signed_in in
  res batch = Err (Error "no matching key") ∧
  Demo.relayed (world batch) = ["[98,111,98,46,110,101,97,114]"] ∧
  length (trace batch) = 5%nat.
Proof.
  intros batch.
  pose proof (signAndSendTransactions_sequential Demo.handle Demo.options
                [Demo.pay "bob.near" 1] (Demo.pay "unknown.testnet" 2)
                [Demo.pay "carol.near" 3] Demo.signed_in eq_refl) as Hbatch.
  cbv zeta in Hbatch.
  change (batch = {| res := Err (Error "no matching key");
                     world := world (run Demo.handle
                                (signAndSendTransactions Demo.options
                                   [Demo.pay "bob.near" 1]) Demo.signed_in);
                     trace := trace (run Demo.handle
                                (signAndSendTransactions Demo.options
                                   [Demo.pay "bob.near" 1]) Demo.signed_in)
                              ++ trace (run Demo.handle
                                   (signAndSendTransaction Demo.options
                                      (Demo.pay "unknown.testnet" 2))
                                   Demo.signed_in) |}) in Hbatch.
  rewrite Hbatch. repeat split.
Defined.

(** The second of three transactions has no access key: resumed first, it
    gives the batch its error. *)
Lemma transformTransactions_missing_key_witness :
  assembled (transformTransactions Demo.handle [1; 0; 2; 0; 2]%nat
               [Demo.pay "bob.near" 1; Demo.pay "unknown.testnet" 2;
                Demo.pay "carol.near" 3] Demo.signed_in)
    = Some (Err (Error "Failed to find matching key for transaction sent to unknown.testnet")).
Proof.
  exact (proj2 (proj2 (proj2
    (transformTransactions_missing_key Demo.handle
       [Demo.pay "bob.near" 1; Demo.pay "unknown.testnet" 2;
        Demo.pay "carol.near" 3]
       Demo.signed_in (Demo.the_account Demo.signed_in)
       (Demo.stored_key Demo.signed_in) 1 (Demo.pay "unknown.testnet" 2)
       eq_refl eq_refl (λ _, eq_refl)))) [0; 2; 0; 2]%nat).
Defined.

(** * Further properties *)

(** ** The module factory *)

(** X1: wallet-URL resolution succeeds exactly when a wallet URL is configured
    or the network is "mainnet" or "testnet"; the URL it yields is never
    empty: the configured one, else "http://localhost:3000" for both
    networks; and the only error is "Invalid wallet url". *)
Theorem resolveWalletUrl_resolves (network : Network)
    (walletUrl : option string) :
  (is_ok (resolveWalletUrl network walletUrl) = true ↔
     truthy walletUrl = true ∨ networkId network = "mainnet" ∨
     networkId network = "testnet") ∧
  (∀ url, resolveWalletUrl network walletUrl = Ok url →
     url ≠ "" ∧
     (walletUrl = Some url ∨
      truthy walletUrl = false ∧ url = "http://localhost:3000")) ∧
  (∀ e, resolveWalletUrl network walletUrl = Err e →
     e = Error "Invalid wallet url").
Proof.
  unfold resolveWalletUrl. destruct (truthy walletUrl) eqn:Hurl.
  - split_and!.
    + split; [by left | done].
    + intros url [= <-]. destruct walletUrl as [u |]; [| done]. cbn in *.
      destruct (String.eqb_spec u ""); [done |]. split; [done | by left].
    + done.
  - destruct (String.eqb_spec (networkId network) "mainnet") as [Hm | Hm];
      [| destruct (String.eqb_spec (networkId network) "testnet")
           as [Ht | Ht]].
    + split_and!; [split; [by right; left | done] | | done].
      intros url [= <-]. split; [done | by right].
    + split_and!; [split; [by right; right | done] | | done].
      intros url [= <-]. split; [done | by right].
    + split_and!; [split; [done | by intros [? | [? | ?]]] | done |].
      by intros e [= <-].
Qed.

Section ModuleFactory.
Context `{ext : External}.

(** X2: a module that was set up is "fast-auth-wallet", of type "browser",
    named "FastAuthWallet" and available; its [init], on the network the
    module was set up for, cannot fail and hands the behaviour factory the
    wallet URL the metadata advertises and the configured relayer URL (the
    empty string when none is). *)
Theorem setupFastAuthWallet_init (p : FastAuthWalletParams)
    (mo : ModuleOptions) (m : WalletModule) :
  setupFastAuthWallet p mo = Ok m →
  module_id m = "fast-auth-wallet" ∧ module_type m = "browser" ∧
  name (module_metadata m) = "FastAuthWallet" ∧
  available (module_metadata m) = true ∧
  resolveWalletUrl (mo_network mo) (p_walletUrl p)
    = Ok (walletUrl (module_metadata m)) ∧
  ∀ md, init m {| init_metadata := md; init_network := mo_network mo |}
        = Ok {| metadata := md; options_network := mo_network mo;
                relayerUrl := default "" (p_relayerUrl p);
                params_walletUrl := walletUrl (module_metadata m) |}.
Proof.
  unfold setupFastAuthWallet.
  destruct (resolveWalletUrl (mo_network mo) (p_walletUrl p)) as [url | e]
    eqn:Hurl; [| done].
  intros [= <-]. cbn. split_and!; try done. intros md. by rewrite Hurl.
Qed.

(** X3: once a module is set up, [init] may be given any network: with a
    wallet URL configured it succeeds with that URL whatever the network;
    with none, it throws "Invalid wallet url" on every network other than
    "mainnet" and "testnet", although the set-up succeeded. *)
Theorem init_other_network (p : FastAuthWalletParams) (mo : ModuleOptions)
    (m : WalletModule) (options : InitOptions) :
  setupFastAuthWallet p mo = Ok m →
  (∀ url, p_walletUrl p = Some url → url ≠ "" →
     init m options
       = Ok {| metadata := init_metadata options;
               options_network := init_network options;
               relayerUrl := default "" (p_relayerUrl p);
               params_walletUrl := url |}) ∧
  (truthy (p_walletUrl p) = false →
   networkId (init_network options) ≠ "mainnet" →
   networkId (init_network options) ≠ "testnet" →
   init m options = Err (Error "Invalid wallet url")).
Proof.
  unfold setupFastAuthWallet.
  destruct (resolveWalletUrl (mo_network mo) (p_walletUrl p)) as [url0 | e];
    [| done].
  intros [= <-]. cbn. split.
  - intros url Hurl Hne. rewrite Hurl.
    by rewrite (resolveWalletUrl_override _ _ Hne).
  - intros Hno Hmain Htest. unfold resolveWalletUrl. rewrite Hno.
    destruct (String.eqb_spec (networkId (init_network options)) "mainnet");
      [done |].
    by destruct (String.eqb_spec (networkId (init_network options)) "testnet").
Qed.

End ModuleFactory.

Lemma setupFastAuthWallet_init_witness :
  ∃ m, setupFastAuthWallet (ext := Demo.ext)
         {| p_walletUrl := None; p_iconUrl := None; p_deprecated := None;
            p_successUrl := None; p_failureUrl := None;
            p_relayerUrl := Some "https://relayer.example/relay" |}
         {| mo_network := {| networkId := "testnet" |} |} = Ok m ∧
       init m {| init_metadata := module_metadata m;
                 init_network := {| networkId := "testnet" |} |}
         = Ok Demo.options.
Proof.
  destruct (setupFastAuthWallet (ext := Demo.ext)
              {| p_walletUrl := None; p_iconUrl := None; p_deprecated := None;
                 p_successUrl := None; p_failureUrl := None;
                 p_relayerUrl := Some "https://relayer.example/relay" |}
              {| mo_network := {| networkId := "testnet" |} |})
    as [m | e] eqn:Hm; [| discriminate Hm].
  exists m. split; [reflexivity |].
  destruct (setupFastAuthWallet_init _ _ _ Hm) as (_ & _ & _ & _ & _ & Hinit).
  rewrite Hinit. injection Hm as <-. reflexivity.
Defined.

Lemma init_other_network_witness :
  ∃ m, setupFastAuthWallet (ext := Demo.ext)
         {| p_walletUrl := None; p_iconUrl := None; p_deprecated := None;
            p_successUrl := None; p_failureUrl := None; p_relayerUrl := None |}
         {| mo_network := {| networkId := "testnet" |} |} = Ok m ∧
       init m {| init_metadata := module_metadata m;
                 init_network := {| networkId := "localnet" |} |}
         = Err (Error "Invalid wallet url").
Proof.
  destruct (setupFastAuthWallet (ext := Demo.ext)
              {| p_walletUrl := None; p_iconUrl := None; p_deprecated := None;
                 p_successUrl := None; p_failureUrl := None;
                 p_relayerUrl := None |}
              {| mo_network := {| networkId := "testnet" |} |})
    as [m | e] eqn:Hm; [| discriminate Hm].
  exists m. split; [reflexivity |].
  apply (proj2 (init_other_network _ _ m
                  {| init_metadata := module_metadata m;
                     init_network := {| networkId := "localnet" |} |} Hm));
    [reflexivity | discriminate | discriminate].
Defined.

(** ** Traces *)

Section TraceFacts.
Context `{ext : External} {W : Type}.
Variable handle : ∀ c : Call, W → result (Reply c) * W.

Lemma calls_only_mono {A} (P Q : Call → Prop) (p : Prog A) :
  (∀ c, P c → Q c) → calls_only P p → calls_only Q p.
Proof.
  intros HPQ. induction p as [a | e | c k IH]; cbn; [done.. |].
  intros [Hc Hk]. split; [by apply HPQ |]. intros x. by apply IH.
Qed.

Lemma calls_only_bind {A B} (P : Call → Prop) (p : Prog A) (f : A → Prog B) :
  calls_only P p → (∀ a, calls_only P (f a)) → calls_only P (bind p f).
Proof.
  intros Hp Hf. induction p as [a | e | c k IH]; cbn; [by apply Hf | done |].
  destruct Hp as [Hc Hk]. split; [done |]. intros x. by apply IH.
Qed.

Lemma run_calls_only {A} (P : Call → Prop) (p : Prog A) (w : W) :
  calls_only P p →
  Forall (λ ev, P (event_call ev)) (trace (run handle p w)).
Proof.
  revert w. induction p as [a | e | c k IH]; intros w Hp; cbn;
    [by constructor.. |].
  destruct Hp as [Hc Hk].
  destruct (handle c w) as [[x | e] w1]; cbn.
  - constructor; [done |]. by apply IH.
  - by repeat constructor.
Qed.

Lemma ensures_impl {A} (R : ∀ c : Call, result (Reply c) → Prop)
    (Q Q' : A → Prop) (p : Prog A) :
  (∀ a, Q a → Q' a) → ensures R Q p → ensures R Q' p.
Proof.
  intros HQ. induction p as [a | e | c k IH]; cbn; [by apply HQ | done |].
  intros Hk x Hx. by apply IH, Hk.
Qed.

Lemma ensures_bind {A B} (R : ∀ c : Call, result (Reply c) → Prop)
    (Q : B → Prop) (p : Prog A) (f : A → Prog B) :
  ensures R (λ a, ensures R Q (f a)) p → ensures R Q (bind p f).
Proof.
  induction p as [a | e | c k IH]; cbn; [done.. |].
  intros Hk x Hx. by apply IH, Hk.
Qed.

(** Whatever the collaborators answer, a value a program returns has the
    property the program ensures. *)
Lemma run_ensures {A} (Q : A → Prop) (p : Prog A) (w : W) (a : A) :
  ensures (λ _ _, True) Q p → res (run handle p w) = Ok a → Q a.
Proof.
  revert w. induction p as [a' | e | c k IH]; intros w Hp; cbn.
  - by intros [= <-].
  - done.
  - destruct (handle c w) as [[x | e] w1]; cbn; [| done].
    by apply IH, Hp.
Qed.

Lemma weight_app (wt : Call → nat) (tr1 tr2 : list Event) :
  weight wt (tr1 ++ tr2) = (weight wt tr1 + weight wt tr2)%nat.
Proof. apply sum_list_with_app. Qed.

Lemma weight_zero (wt : Call → nat) (tr : list Event) :
  Forall (λ ev, wt (event_call ev) = 0%nat) tr → weight wt tr = 0%nat.
Proof.
  unfold weight. induction 1 as [| ev tr Hev _ IH]; cbn; [done |].
  by rewrite Hev, IH.
Qed.

End TraceFacts.

(** ** The session, continued *)

Section SessionMore.
Context `{ext : External} {W : Type}.
Variable handle : ∀ c : Call, W → result (Reply c) * W.
Variable o : FactoryOptions.

Lemma getAccounts_calls : calls_only session_call (getAccounts o).
Proof.
  split; [done |]. intros accountId. split; [done |]. intros account. cbn.
  destruct (String.eqb accountId ""); [done |].
  destruct account as [a |]; [| done]. by split.
Qed.

Lemma getAccounts_ensures :
  ensures (λ _ _, True) at_most_one_account (getAccounts o).
Proof.
  intros accountId _ account _. cbn.
  destruct (String.eqb_spec accountId "") as [-> | Hne]; [by left |].
  destruct account as [a |]; [| by left].
  intros key _. right. by eexists.
Qed.

(** X4: in a wallet initialised from the module's own metadata, on any
    network, [verifyOwner] fails with "Method not supported by
    FastAuthWallet" in every world, without any call. *)
Theorem verifyOwner_of_module (p : FastAuthWalletParams) (mo : ModuleOptions)
    (m : WalletModule) (network : Network) (options : FactoryOptions) (w : W) :
  setupFastAuthWallet p mo = Ok m →
  init m {| init_metadata := module_metadata m; init_network := network |}
    = Ok options →
  run handle (verifyOwner options) w =
    {| res := Err (Error "Method not supported by FastAuthWallet");
       world := w; trace := [] |}.
Proof.
  intros Hm Hinit.
  by rewrite (verifyOwner_names_FastAuthWallet p mo m network options Hm Hinit).
Qed.

(** X5: [signOut] asks whether an account is signed in and calls the wallet's
    [signOut] only on the answer true: on false it returns at once, having
    made that one call; on true its outcome is that of the wallet's
    [signOut]; when the question itself fails, so does [signOut], and
    nothing is signed out. *)
Theorem signOut_guarded (w : W) :
  let asked := handle wallet_isSignedIn w in
  let out := run handle signOut w in
  match fst asked with
  | Ok false =>
      out = {| res := Ok (); world := snd asked;
               trace := [Called wallet_isSignedIn (Ok false)] |}
  | Ok true =>
      let cleared := handle wallet_signOut (snd asked) in
      out = {| res := fst cleared; world := snd cleared;
               trace := [Called wallet_isSignedIn (Ok true);
                         Called wallet_signOut (fst cleared)] |}
  | Err e =>
      out = {| res := Err e; world := snd asked;
               trace := [Called wallet_isSignedIn (Err e)] |}
  end.
Proof.
  intros asked out. subst asked out. unfold signOut. cbn.
  destruct (handle wallet_isSignedIn w) as [[[] | e] w1]; cbn; [| done..].
  by destruct (handle wallet_signOut w1) as [[[] | e] w2].
Qed.

(** X6: with nobody signed in, [signIn] runs the handshake with the
    parameters it was given, in the world [getAccounts] left; when the
    handshake succeeds, [signIn] ends as a second [getAccounts] does in the
    world the handshake left; when it is rejected, [signIn] fails with that
    error and does not query the accounts again. *)
Theorem signIn_handshake (p : SignInParams) (w : W) :
  let first := run handle (getAccounts o) w in
  let shaken := handle (wallet_requestSignIn p) (world first) in
  res first = Ok [] →
  match fst shaken with
  | Ok _ =>
      let second := run handle (getAccounts o) (snd shaken) in
      run handle (signIn o p) w =
        {| res := res second; world := world second;
           trace := trace first
                    ++ Called (wallet_requestSignIn p) (fst shaken)
                    :: trace second |}
  | Err e =>
      run handle (signIn o p) w =
        {| res := Err e; world := snd shaken;
           trace := trace first
                    ++ [Called (wallet_requestSignIn p) (Err e)] |}
  end.
Proof.
  intros first shaken Hfirst. subst shaken.
  unfold signIn. rewrite run_bind. cbv zeta. fold first. rewrite Hfirst.
  cbn -[getAccounts].
  destruct (handle (wallet_requestSignIn p) (world first)) as [[[] | e] w2];
    cbn -[getAccounts]; [| done].
  by destruct (run handle (getAccounts o) w2).
Qed.

(** X7: [getAccounts] and [signIn] return at most one account, and an
    account they return has a non-empty accountId. *)
Theorem accounts_at_most_one (p : SignInParams) (w : W)
    (accounts : list Account) :
  res (run handle (getAccounts o) w) = Ok accounts ∨
  res (run handle (signIn o p) w) = Ok accounts →
  accounts = [] ∨ ∃ a, accounts = [a] ∧ accountId a ≠ "".
Proof.
  intros [Hres | Hres]; revert Hres;
    apply (run_ensures handle at_most_one_account).
  - apply getAccounts_ensures.
  - unfold signIn. apply ensures_bind.
    apply (ensures_impl _ at_most_one_account); [| apply getAccounts_ensures].
    intros existing Hex.
    destruct existing as [| a rest]; cbn -[getAccounts]; [| done].
    intros _ _. apply getAccounts_ensures.
Qed.

(** X8: [signIn] runs the handshake at most once, with the parameters it was
    given, and besides only queries the session and the signer: it never
    consults the ledger, signs a delegate or posts to the relay. *)
Theorem signIn_calls (p : SignInParams) (w : W) :
  let tr := trace (run handle (signIn o p) w) in
  Forall (λ ev, session_call (event_call ev) ∨
                event_call ev = wallet_requestSignIn p) tr ∧
  (count_calls is_handshake tr ≤ 1)%nat.
Proof.
  assert (Hquiet : ∀ w', count_calls is_handshake
                           (trace (run handle (getAccounts o) w')) = 0%nat).
  { intros w'. apply weight_zero.
    eapply Forall_impl; [apply (run_calls_only handle _ _ w' getAccounts_calls) |].
    by intros [[] r]. }
  assert (Hsession : ∀ w', Forall (λ ev, session_call (event_call ev) ∨
                                        event_call ev = wallet_requestSignIn p)
                             (trace (run handle (getAccounts o) w'))).
  { intros w'.
    eapply Forall_impl; [apply (run_calls_only handle _ _ w' getAccounts_calls) |].
    intros ev Hev. by left. }
  cbv zeta. unfold signIn. rewrite run_bind. cbv zeta.
  pose proof (Hquiet w) as Hq0. pose proof (Hsession w) as Hs0.
  destruct (run handle (getAccounts o) w) as [r0 w0 tr0]. cbn [res world trace] in *.
  destruct r0 as [existing | e]; [| cbn [trace]; split; [done | lia]].
  destruct existing as [| a rest]; cbn [length Nat.eqb negb].
  - cbn [bind call run].
    destruct (handle (wallet_requestSignIn p) w0) as [[[] | e] w2]; cbn [trace after].
    + pose proof (Hquiet w2) as Hq2. pose proof (Hsession w2) as Hs2.
      cbn [bind]. destruct (run handle (getAccounts o) w2) as [r2 w3 tr2].
      cbn [res world trace] in *. split.
      * apply Forall_app. split; [done |]. constructor; [by right | done].
      * unfold count_calls in *. rewrite weight_app, Hq0.
        change (weight _ (Called (wallet_requestSignIn p) (Ok ()) :: tr2))
          with (S (weight (λ c, if is_handshake c then 1%nat else 0%nat) tr2)).
        rewrite Hq2. lia.
    + split.
      * apply Forall_app. split; [done |]. constructor; [by right | done].
      * unfold count_calls in *. rewrite weight_app, Hq0. cbn. lia.
  - cbn [run trace]. rewrite app_nil_r. split; [done | lia].
Qed.

End SessionMore.

(** ** Dispatch, continued *)

Section DispatchMore.
Context `{ext : External} {W : Type}.
Variable handle : ∀ c : Call, W → result (Reply c) * W.
Variable o : FactoryOptions.

Lemma signAndSendTransaction_calls (t : Transaction) :
  calls_only (dispatch_call o) (signAndSendTransaction o t).
Proof.
  split; [done |]. intros [a |]; cbn; [| done].
  split; [done |]. intros sd. by split.
Qed.

Lemma signAndSendTransactions_calls (l : list Transaction) :
  calls_only (dispatch_call o) (signAndSendTransactions o l).
Proof.
  induction l as [| t l IH]; [done |].
  cbn [signAndSendTransactions]. apply calls_only_bind; [| done].
  apply signAndSendTransaction_calls.
Qed.

(** What one dispatch asks for: no delegate, or the delegate of [t] and,
    when it ends well, one answered post to the relay. *)
Lemma signAndSendTransaction_requests (t : Transaction) (w : W) :
  let out := run handle (signAndSendTransaction o t) w in
  match res out with
  | Ok _ =>
      delegations (trace out) = [delegateOptions t] ∧
      ∃ sd, answered_posts (trace out) = [(relayerUrl o, relayRequest sd)]
  | Err _ =>
      (delegations (trace out) = [] ∨
       delegations (trace out) = [delegateOptions t]) ∧
      answered_posts (trace out) = []
  end.
Proof.
  cbv zeta. unfold signAndSendTransaction. cbn.
  destruct (handle wallet_account w) as [[[a |] | e] w1]; cbn; [| by auto..].
  fold (delegateOptions t).
  destruct (handle (account_signedDelegate a (delegateOptions t)) w1)
    as [[sd | e] w2]; cbn; [| by auto].
  destruct (handle (fetch (relayerUrl o) (relayRequest sd)) w2)
    as [[r | e] w3]; cbn; [| by auto].
  split; [done |]. by exists sd.
Qed.

(** X9: whatever happens, the delegates a batch asks for are those of its
    transactions, in array order, up to the point the batch stopped, and
    every post to the relay that was answered followed its own delegate; a
    batch that ends well asked for the delegate of every transaction and has
    one answered post per transaction, each to the relayer URL. *)
Theorem signAndSendTransactions_requests (l : list Transaction) (w : W) :
  let out := run handle (signAndSendTransactions o l) w in
  delegations (trace out) `prefix_of` (delegateOptions <$> l) ∧
  (length (answered_posts (trace out)) ≤ length (delegations (trace out)))%nat ∧
  (res out = Ok () →
   delegations (trace out) = delegateOptions <$> l ∧
   ∃ sds, length sds = length l ∧
          answered_posts (trace out)
            = (λ sd, (relayerUrl o, relayRequest sd)) <$> sds).
Proof.
  revert w. induction l as [| t l IH]; intros w.
  - cbn. split_and!; [done | done |]. intros _. split; [done |]. by exists [].
  - cbv zeta. rewrite signAndSendTransactions_cons. cbv zeta.
    assert (Ht : {| receiverId := receiverId t; signerId := signerId t;
                    actions := actions t |} = t) by by destruct t.
    pose proof (signAndSendTransaction_requests t w) as Hone.
    cbv zeta in Hone.
    destruct (res (run handle (signAndSendTransaction o t) w)) as [[] | e].
    + destruct Hone as [Hd [sd Hp]].
      specialize (IH (world (run handle (signAndSendTransaction o t) w))).
      cbv zeta in IH. destruct IH as (IHd & IHn & IHok).
      cbn [res world trace].
      unfold delegations, answered_posts in *.
      rewrite !omap_app, Hd, Hp. cbn [app fmap list_fmap length].
      split_and!.
      * by apply prefix_cons.
      * lia.
      * intros Hok. destruct (IHok Hok) as (-> & sds & Hlen & ->).
        split; [done |]. exists (sd :: sds). cbn. by rewrite Hlen.
    + cbn [res world trace]. destruct Hone as [[Hd | Hd] Hp];
        rewrite Hd, Hp; split_and!; try done; cbn; try lia.
      * apply prefix_nil.
      * apply prefix_cons, prefix_nil.
Qed.

(** X10: a batch only resolves the account, signs delegates valid for 60
    blocks and posts to the relayer URL (POST, cors, JSON content type): it
    never starts a sign-in, never consults the ledger, never posts anywhere
    else; and it makes at most three calls per transaction. *)
Theorem signAndSendTransactions_only_dispatches (l : list Transaction) (w : W) :
  let tr := trace (run handle (signAndSendTransactions o l) w) in
  Forall (λ ev, dispatch_call o (event_call ev)) tr ∧
  (length tr ≤ 3 * length l)%nat.
Proof.
  cbv zeta. split.
  - apply run_calls_only, signAndSendTransactions_calls.
  - revert w. induction l as [| t l IH]; intros w; [done |].
    rewrite signAndSendTransactions_cons. cbv zeta.
    assert (length (trace (run handle (signAndSendTransaction o t) w)) ≤ 3)%nat
      as Hone.
    { destruct (signAndSendTransaction_runs handle o t w)
        as [(e & -> & _) | [[-> _] | [(a & e & -> & _) | (a & sd & r & -> & _)]]];
        cbn; lia. }
    destruct (res (run handle (signAndSendTransaction o t) w)) as [[] | e];
      cbn [trace length].
    + rewrite length_app.
      specialize (IH (world (run handle (signAndSendTransaction o t) w))). lia.
    + lia.
Qed.

(** X11: a batch does not read [signerId]: two batches with the same
    receivers and actions, in the same order, run alike in every world. *)
Theorem signAndSendTransactions_same_requests (l1 l2 : list Transaction)
    (w : W) :
  (λ t, (receiverId t, actions t)) <$> l1
    = (λ t, (receiverId t, actions t)) <$> l2 →
  run handle (signAndSendTransactions o l1) w
    = run handle (signAndSendTransactions o l2) w.
Proof.
  intros Heq. by rewrite (signAndSendTransactions_ignores_signerId o l1 l2 Heq).
Qed.

End DispatchMore.

(** ** The relay body *)

Section RelayBody.

Lemma split_commas_comma_free (x : string) :
  no_comma x = true → split_commas x = [x].
Proof.
  induction x as [| c x IH]; simpl; [done |].
  destruct (Ascii.eqb c ","); simpl; [done |]. intros Hx. by rewrite IH.
Qed.

Lemma split_commas_app (x s : string) :
  no_comma x = true →
  split_commas (x +:+ String "," s) = x :: split_commas s.
Proof.
  induction x as [| c x IH]; simpl; [done |].
  destruct (Ascii.eqb c ","); simpl; [done |]. intros Hx. by rewrite IH.
Qed.

Lemma split_commas_concat (l : list string) :
  l ≠ [] → Forall (λ x, no_comma x = true) l →
  split_commas (String.concat "," l) = l.
Proof.
  induction l as [| x l IH]; [done |]. intros _ Hl.
  apply Forall_cons in Hl as [Hx Hl]. destruct l as [| y l].
  - cbn. by apply split_commas_comma_free.
  - change (String.concat "," (x :: y :: l))
      with (x +:+ String "," (String.concat "," (y :: l))).
    rewrite split_commas_app by done. by rewrite IH.
Qed.

Lemma to_uint_nonnil (n : N) : N.to_uint n ≠ Decimal.Nil.
Proof.
  destruct n as [| p]; [done |]. apply DecimalPos.Unsigned.to_uint_nonnil.
Qed.

Lemma decimal_inj (n m : N) : decimal n = decimal m → n = m.
Proof.
  intros Heq. apply DecimalN.Unsigned.to_uint_inj.
  assert (Some (N.to_uint n) = Some (N.to_uint m)) as [= ->]; [| done].
  rewrite <- (NilZero.usu (N.to_uint n)) by apply to_uint_nonnil.
  rewrite <- (NilZero.usu (N.to_uint m)) by apply to_uint_nonnil.
  unfold decimal in Heq. by rewrite Heq.
Qed.

Lemma digits_no_comma (d : Decimal.uint) :
  no_comma (NilEmpty.string_of_uint d) = true.
Proof. induction d; cbn; done. Qed.

Lemma decimal_no_comma (n : N) : no_comma (decimal n) = true.
Proof.
  unfold decimal, NilZero.string_of_uint.
  destruct (N.to_uint n) eqn:Hd; try rewrite <- Hd; try done;
    rewrite Hd; apply (digits_no_comma (_ _)).
Qed.

Lemma decimal_nonempty (n : N) : decimal n ≠ "".
Proof.
  unfold decimal, NilZero.string_of_uint.
  by destruct (N.to_uint n).
Qed.

Lemma append_inj_r (s1 s2 t : string) : s1 +:+ t = s2 +:+ t → s1 = s2.
Proof.
  assert (Hlen : ∀ s u : string,
             String.length (s +:+ u) = (String.length s + String.length u)%nat).
  { intros s u. induction s as [| c s IH]; [done |].
    change (S (String.length (s +:+ u))
            = S (String.length s + String.length u)). by rewrite IH. }
  revert s2. induction s1 as [| c s1 IH]; intros [| c2 s2]; [done | | |].
  - intros Heq. apply (f_equal String.length) in Heq.
    rewrite !Hlen in Heq. cbn [String.length] in Heq. lia.
  - intros Heq. apply (f_equal String.length) in Heq.
    rewrite !Hlen in Heq. cbn [String.length] in Heq. lia.
  - intros [= -> Heq]. by rewrite (IH s2 Heq).
Qed.

Lemma decimals_no_comma (xs : list N) :
  Forall (λ x, no_comma x = true) (map decimal xs).
Proof.
  induction xs as [| x xs IH]; constructor; [apply decimal_no_comma | done].
Qed.

Lemma JSON_stringify_inj (xs ys : list N) :
  JSON_stringify xs = JSON_stringify ys → xs = ys.
Proof.
  unfold JSON_stringify. fold decimal. intros [= Heq].
  change (String.concat "," (map decimal xs) +:+ "]"
          = String.concat "," (map decimal ys) +:+ "]") in Heq.
  apply append_inj_r in Heq.
  assert (Hmap : map decimal xs = map decimal ys).
  { destruct xs as [| x xs], ys as [| y ys]; [done | | |].
    - exfalso. simpl in Heq. destruct (map decimal ys); simpl in Heq.
      + by apply (decimal_nonempty y).
      + destruct (decimal y) eqn:Hy; [by apply (decimal_nonempty y) | done].
    - exfalso. simpl in Heq. destruct (map decimal xs); simpl in Heq.
      + by apply (decimal_nonempty x).
      + destruct (decimal x) eqn:Hx; [by apply (decimal_nonempty x) | done].
    - pose proof (split_commas_concat (map decimal (x :: xs)) ltac:(done)
                    (decimals_no_comma (x :: xs))) as Hx.
      pose proof (split_commas_concat (map decimal (y :: ys)) ltac:(done)
                    (decimals_no_comma (y :: ys))) as Hy.
      congruence. }
  clear Heq. revert ys Hmap.
  induction xs as [| x xs IH]; intros [| y ys]; simpl; try done.
  intros [= Hx Hrest]. f_equal; [by apply decimal_inj | by apply IH].
Qed.

Lemma Array_from_inj (bs1 bs2 : list Byte.byte) :
  Array_from bs1 = Array_from bs2 → bs1 = bs2.
Proof.
  unfold Array_from. revert bs2.
  induction bs1 as [| b1 bs1 IH]; intros [| b2 bs2]; cbn; try done.
  intros [= Hb Hrest]. f_equal; [| by apply IH].
  assert (Some b1 = Some b2) as [= ->]; [| done].
  by rewrite <- (Byte.of_to_N b1), <- (Byte.of_to_N b2), Hb.
Qed.

(** X12: the JSON text posted to the relay determines the bytes of the signed
    delegate: two delegates give the same request exactly when
    [encodeSignedDelegate] gives them the same bytes. *)
Theorem relayRequest_faithful `{ext : External} (sd1 sd2 : SignedDelegate) :
  (relayRequest sd1 = relayRequest sd2 ↔
     encodeSignedDelegate sd1 = encodeSignedDelegate sd2) ∧
  (body (relayRequest sd1) = body (relayRequest sd2) ↔
     encodeSignedDelegate sd1 = encodeSignedDelegate sd2).
Proof.
  assert (Hbody : body (relayRequest sd1) = body (relayRequest sd2) →
                  encodeSignedDelegate sd1 = encodeSignedDelegate sd2).
  { cbn. intros Heq. by apply Array_from_inj, JSON_stringify_inj. }
  split; split; intros Heq.
  - apply Hbody. by rewrite Heq.
  - unfold relayRequest. by rewrite Heq.
  - by apply Hbody.
  - cbn. by rewrite Heq.
Qed.

End RelayBody.

(** ** [Promise.all], continued *)

Section PoolTraces.
Context `{ext : External} {W A : Type}.
Variable handle : ∀ c : Call, W → result (Reply c) * W.

Implicit Types (p : Pool W A) (sched : list nat).

Lemma task_calls_only_start (P : Call → Prop) (q : Prog A) :
  calls_only P q → task_calls_only P (start q).
Proof. by destruct q. Qed.

Lemma task_spends_start (wt : Call → nat) (m : nat) (q : Prog A) :
  spends wt m q → task_spends wt m (start q).
Proof. by destruct q. Qed.

Lemma returns_with_impl (Q Q' : list Event → A → Prop) h (q : Prog A) :
  (∀ h' a, Q h' a → Q' h' a) → returns_with Q h q → returns_with Q' h q.
Proof.
  intros HQ. revert h. induction q as [a | e | c k IH]; intros h; cbn;
    [by apply HQ | done |].
  intros Hq x. by apply IH.
Qed.

Lemma task_returns_with_start (Q : list Event → A → Prop) h (q : Prog A) :
  returns_with Q h q → task_returns_with Q h (start q).
Proof. by destruct q. Qed.

(** An answered call extends the history of the promise that awaited it, and
    the trace. *)
Lemma resume_returns_with (Q : nat → list Event → A → Prop) p i :
  pool_returns_with Q p → pool_returns_with Q (resume handle p i).
Proof.
  intros Hinv j t. unfold resume.
  destruct (tasks p !! i) as [[c k | a | e] |] eqn:Hi; try apply Hinv.
  destruct (handle c (pool_world p)) as [r w1]. cbn.
  destruct (decide (i = j)) as [-> | Hne].
  - rewrite list_lookup_insert_eq by (by eapply lookup_lt_Some).
    intros [= <-]. destruct (Hinv j _ Hi) as (h & Hsub & Hk).
    destruct r as [x | e].
    + exists (h ++ [Called c (Ok x)]). split; [by apply sublist_app |].
      apply task_returns_with_start, Hk.
    + exists h. split; [by apply sublist_inserts_r | done].
  - rewrite list_lookup_insert_ne by done. intros Hj.
    destruct (Hinv j t Hj) as (h & Hsub & Ht).
    exists h. split; [by apply sublist_inserts_r | done].
Qed.

Lemma schedule_returns_with (Q : nat → list Event → A → Prop) sched p :
  pool_returns_with Q p → pool_returns_with Q (schedule handle sched p).
Proof.
  revert p. induction sched as [| i sched IH]; intros p Hinv; [done |].
  rewrite schedule_cons. by apply IH, resume_returns_with.
Qed.

(** Every value [Promise.all] fulfils with comes with the answered calls of
    its promise, found in the trace in the order they were made. *)
Lemma promise_all_returns_with (Q : nat → list Event → A → Prop) sched p out :
  pool_returns_with Q p →
  promise_all (schedule handle sched p) = Some (Ok out) →
  ∀ j a, out !! j = Some a →
         ∃ h, sublist h (pool_trace (schedule handle sched p)) ∧ Q j h a.
Proof.
  intros Hinv Hall j a Ha. apply promise_all_fulfilled in Hall.
  destruct (Forall2_lookup_r _ _ _ _ _ Hall Ha) as (t & Ht & ->).
  exact (schedule_returns_with Q sched p Hinv j _ Ht).
Qed.

(** With no promise to resume, a schedule changes nothing. *)
Lemma schedule_no_tasks sched p : tasks p = [] → schedule handle sched p = p.
Proof.
  intros Hp. induction sched as [| i sched IH]; [done |].
  rewrite schedule_cons. unfold resume. by rewrite Hp.
Qed.

(** The calls made while the promises are resumed are calls the promises
    were awaiting. *)
Lemma schedule_calls_only (P : Call → Prop) sched p :
  (∀ j t, tasks p !! j = Some t → task_calls_only P t) →
  ∃ evs, pool_trace (schedule handle sched p) = pool_trace p ++ evs ∧
         Forall (λ ev, P (event_call ev)) evs.
Proof.
  revert p. induction sched as [| i sched IH]; intros p Hinv.
  - exists []. by rewrite app_nil_r.
  - rewrite schedule_cons.
    destruct (tasks p !! i) as [[c k | a | e] |] eqn:Hi;
      try (unfold resume; rewrite Hi; by apply IH).
    destruct (Hinv i _ Hi) as [Hc Hk].
    destruct (IH (resume handle p i)) as (evs & Htr & Hevs).
    + intros j t. unfold resume. rewrite Hi.
      destruct (handle c (pool_world p)) as [r w1]. cbn.
      destruct (decide (i = j)) as [-> | Hne].
      * rewrite list_lookup_insert_eq by (by eapply lookup_lt_Some).
        intros [= <-]. destruct r as [x | e]; [| done].
        by apply task_calls_only_start.
      * rewrite list_lookup_insert_ne by done. apply Hinv.
    + rewrite Htr. unfold resume. rewrite Hi.
      destruct (handle c (pool_world p)) as [r w1]. cbn.
      exists (Called c r :: evs). rewrite <- app_assoc. split; [done |].
      by constructor.
Qed.

Lemma sum_list_insert (ms : list nat) (i m m' : nat) :
  ms !! i = Some m → (m' ≤ m)%nat →
  (sum_list (<[i := m']> ms) + (m - m') = sum_list ms)%nat.
Proof.
  revert i. induction ms as [| m0 ms IH]; intros [| i]; try done.
  - intros [= ->] Hle.
    change (m' + sum_list ms + (m - m') = m + sum_list ms)%nat. lia.
  - intros Hi Hle. specialize (IH i Hi Hle).
    change (m0 + sum_list (<[i := m']> ms) + (m - m')
            = m0 + sum_list ms)%nat.
    lia.
Qed.

(** Each promise has a budget; a call spends its weight from the budget of
    the promise that made it. *)
Lemma schedule_spends (wt : Call → nat) sched p (ms : list nat) :
  Forall2 (task_spends wt) ms (tasks p) →
  ∃ evs ms',
    pool_trace (schedule handle sched p) = pool_trace p ++ evs ∧
    Forall2 (task_spends wt) ms' (tasks (schedule handle sched p)) ∧
    (weight wt evs + sum_list ms' = sum_list ms)%nat.
Proof.
  revert p ms. induction sched as [| i sched IH]; intros p ms Hinv.
  - exists [], ms. by rewrite app_nil_r.
  - rewrite schedule_cons.
    destruct (tasks p !! i) as [[c k | a | e] |] eqn:Hi;
      try (unfold resume; rewrite Hi; by apply IH).
    destruct (Forall2_lookup_r _ _ _ _ _ Hinv Hi) as (m & Hm & Hle & Hk).
    destruct (IH (resume handle p i) (<[i := (m - wt c)%nat]> ms))
      as (evs & ms' & Htr & Hinv' & Hsum).
    + unfold resume. rewrite Hi.
      destruct (handle c (pool_world p)) as [r w1]. cbn.
      apply Forall2_insert; [done |].
      destruct r as [x | e]; [| done]. by apply task_spends_start.
    + exists (Called c (fst (handle c (pool_world p))) :: evs), ms'.
      rewrite Htr. unfold resume at 1 2. rewrite Hi.
      destruct (handle c (pool_world p)) as [r w1] eqn:Hc. cbn.
      rewrite <- app_assoc. split; [done |].
      split.
      { revert Hinv'. unfold resume. by rewrite Hi, Hc. }
      pose proof (sum_list_insert ms i m (m - wt c)%nat Hm) as Hins.
      specialize (Hins ltac:(lia)).
      change (weight wt (Called c r :: evs))
        with (wt c + weight wt evs)%nat. unfold weight in *. lia.
Qed.

Lemma fulfilled_spent (wt : Call → nat) (ms : list nat)
    (ts : list (Task A)) (out : list A) :
  Forall2 (task_spends wt) ms ts →
  Forall2 (λ t a, t = Fulfilled a) ts out →
  sum_list ms = 0%nat.
Proof.
  intros Hms. revert out.
  induction Hms as [| m t ms ts Hm _ IH]; intros out Hout; [done |].
  inversion Hout as [| t' a ts' out' Ht Hrest]; subst. cbn in *. subst m.
  by rewrite (IH _ Hrest).
Qed.

End PoolTraces.

(** ** The transaction assembler, continued *)

Section AssemblerMore.
Context `{ext : External} {W : Type}.
Variable handle : ∀ c : Call, W → result (Reply c) * W.

Lemma assemble_calls account localKey (transactions : list Transaction) i tx :
  tx ∈ transactions →
  calls_only (assembly_call account localKey transactions)
    (assemble account localKey i tx).
Proof.
  intros Hin. split; [left; by exists tx |].
  intros [key |]; cbn; [| done]. split; [by right |]. intros block.
  destruct (PublicKey_from (public_key key)); cbn; [| done].
  by destruct (base_decode (hash (header block))).
Qed.

Lemma assemble_spends (wt : Call → nat) account localKey i tx :
  spends wt (wt (lookup_of account localKey tx)
             + wt (provider_block (conn_provider account) "final"))
    (assemble account localKey i tx).
Proof.
  split; [unfold lookup_of; lia |].
  intros [key |]; cbn; [| done]. split; [unfold lookup_of; lia |].
  intros block.
  destruct (PublicKey_from (public_key key)); cbn; [| done].
  destruct (base_decode (hash (header block))); cbn; [| done].
  unfold lookup_of. lia.
Qed.

Lemma assemble_from account localKey i tx :
  returns_with (assembled_from account localKey tx i) []
    (assemble account localKey i tx).
Proof.
  intros [key |]; cbn; [| done]. intros block.
  destruct (PublicKey_from (public_key key)) as [pk | e] eqn:Hpk; cbn;
    [| done].
  destruct (base_decode (hash (header block))) as [h | e] eqn:Hh; cbn;
    [| done].
  by exists key, block, pk, h.
Qed.

Lemma assemble_unparsable account localKey i tx :
  ensures (keys_unparsable account localKey) (λ _, False)
    (assemble account localKey i tx).
Proof.
  intros [key |] Hkey; cbn; [| done]. intros block _.
  cbn in Hkey. specialize (Hkey eq_refl eq_refl key eq_refl).
  by destruct (PublicKey_from (public_key key)).
Qed.

Lemma assemble_undecodable account localKey i tx :
  ensures hashes_undecodable (λ _, False) (assemble account localKey i tx).
Proof.
  intros [key |] _; cbn; [| done]. intros block Hblock.
  cbn in Hblock. specialize (Hblock block eq_refl).
  destruct (PublicKey_from (public_key key)); cbn; [| done].
  by destruct (base_decode (hash (header block))).
Qed.

(** X13: for the empty batch [transformTransactions] fulfils with the empty
    array as soon as the signer has answered, whatever the schedule, and
    makes no call besides resolving the account and the local key. *)
Theorem transformTransactions_empty (sched : list nat) (w : W)
    (account : ConnectedAccount) (localKey : option PublicKey) :
  res (run handle localSigner w) = Ok (account, localKey) →
  transformTransactions handle sched [] w =
    {| assembled := Some (Ok []);
       assembly_world := world (run handle localSigner w);
       assembly_trace := trace (run handle localSigner w) |}.
Proof.
  intros Hsigner. unfold transformTransactions. rewrite Hsigner.
  by rewrite schedule_no_tasks.
Qed.

(** X14: without an account object [transformTransactions] rejects with a
    TypeError (reading [connection]) for every batch, the empty one too,
    having made no other call; when the signer's key lookup is rejected it
    rejects with that error; in both cases the ledger is not consulted. *)
Theorem transformTransactions_not_signed_in (sched : list nat)
    (transactions : list Transaction) (w : W) :
  let asked := handle wallet_account w in
  let batch := transformTransactions handle sched transactions w in
  match fst asked with
  | Ok None =>
      batch = {| assembled := Some (Err (TypeError "connection"));
                 assembly_world := snd asked;
                 assembly_trace := [Called wallet_account (Ok None)] |}
  | Ok (Some account) =>
      let lookup := signer_getPublicKey (conn_signer account)
                      (acct_accountId account) (conn_networkId account) in
      ∀ e, fst (handle lookup (snd asked)) = Err e →
           batch = {| assembled := Some (Err e);
                      assembly_world := snd (handle lookup (snd asked));
                      assembly_trace :=
                        [Called wallet_account (Ok (Some account));
                         Called lookup (Err e)] |}
  | Err e =>
      batch = {| assembled := Some (Err e); assembly_world := snd asked;
                 assembly_trace := [Called wallet_account (Err e)] |}
  end.
Proof.
  cbv zeta. unfold transformTransactions, localSigner. cbn.
  destruct (handle wallet_account w) as [[[account |] | e] w1]; cbn;
    [| done..].
  intros e He.
  destruct (handle (signer_getPublicKey _ _ _) w1) as [r w2]. cbn in *.
  by subst r.
Qed.

(** X15: the calls [transformTransactions] makes after resolving the account
    and the local key are access-key lookups for transactions of the batch
    and fetches of the final block, however the promises are resumed: it
    signs nothing and submits nothing. *)
Theorem transformTransactions_calls (sched : list nat)
    (transactions : list Transaction) (w : W)
    (account : ConnectedAccount) (localKey : option PublicKey) :
  res (run handle localSigner w) = Ok (account, localKey) →
  ∃ evs,
    assembly_trace (transformTransactions handle sched transactions w)
      = trace (run handle localSigner w) ++ evs ∧
    Forall (λ ev, assembly_call account localKey transactions (event_call ev))
      evs ∧
    Forall (λ ev, is_relay (event_call ev) = false ∧
                  is_handshake (event_call ev) = false) evs.
Proof.
  intros Hsigner. unfold transformTransactions. rewrite Hsigner.
  cbn [assembly_trace].
  destruct (schedule_calls_only handle
              (assembly_call account localKey transactions) sched
              (spawn (imap (assemble account localKey) transactions)
                 (world (run handle localSigner w))
                 (trace (run handle localSigner w))))
    as (evs & Htr & Hevs).
  { intros j t Hj.
    destruct (spawn_assemble_lookup _ _ _ _ _ _ _ Hj) as (tx & Htx & ->).
    apply task_calls_only_start, assemble_calls.
    by eapply list_elem_of_lookup_2. }
  exists evs. split; [exact Htr |]. split; [done |].
  eapply Forall_impl; [exact Hevs |].
  intros [c r] [(tx & _ & ->) | ->]; done.
Qed.

Lemma spawn_assemble_spends (wt : Call → nat) (m : nat) account localKey
    (transactions : list Transaction) (w : W) tr :
  (∀ tx, wt (lookup_of account localKey tx)
         + wt (provider_block (conn_provider account) "final") = m)%nat →
  Forall2 (task_spends wt) (replicate (length transactions) m)
    (tasks (spawn (imap (assemble account localKey) transactions) w tr)).
Proof.
  intros Hm. apply Forall2_same_length_lookup_2.
  - by rewrite spawn_assemble_length, length_replicate.
  - intros j m' t Hm' Hj. apply lookup_replicate in Hm' as [-> _].
    destruct (spawn_assemble_lookup _ _ _ _ _ _ _ Hj) as (tx & Htx & ->).
    apply task_spends_start. rewrite <- (Hm tx). apply assemble_spends.
Qed.

Lemma transformTransactions_counts (f : Call → bool) (sched : list nat)
    (transactions : list Transaction) (w : W)
    (account : ConnectedAccount) (localKey : option PublicKey) :
  (∀ tx, (if f (lookup_of account localKey tx) then 1 else 0)
         + (if f (provider_block (conn_provider account) "final")
            then 1 else 0) = 1)%nat →
  res (run handle localSigner w) = Ok (account, localKey) →
  ∃ evs,
    assembly_trace (transformTransactions handle sched transactions w)
      = trace (run handle localSigner w) ++ evs ∧
    (count_calls f evs ≤ length transactions)%nat ∧
    ∀ out, assembled (transformTransactions handle sched transactions w)
             = Some (Ok out) →
           count_calls f evs = length transactions.
Proof.
  intros Hf Hsigner. unfold transformTransactions. rewrite Hsigner.
  cbn [assembly_trace assembled].
  destruct (schedule_spends handle (λ c, if f c then 1%nat else 0%nat) sched
              (spawn (imap (assemble account localKey) transactions)
                 (world (run handle localSigner w))
                 (trace (run handle localSigner w)))
              (replicate (length transactions) 1%nat))
    as (evs & ms' & Htr & Hms' & Hsum).
  { by apply spawn_assemble_spends. }
  rewrite sum_list_replicate in Hsum.
  exists evs. split; [exact Htr |]. unfold count_calls. split; [lia |].
  intros out Hout. apply promise_all_fulfilled in Hout.
  rewrite (fulfilled_spent _ _ _ _ Hms' Hout) in Hsum. lia.
Qed.

(** X16: however the promises are resumed, and for however long,
    [transformTransactions] makes at most one access-key lookup and at most
    one block fetch per transaction; when it fulfils it has made exactly one
    of each per transaction: the final block is fetched once for every
    transaction, not once for the batch. *)
Theorem transformTransactions_call_counts (sched : list nat)
    (transactions : list Transaction) (w : W)
    (account : ConnectedAccount) (localKey : option PublicKey) :
  res (run handle localSigner w) = Ok (account, localKey) →
  ∃ evs,
    assembly_trace (transformTransactions handle sched transactions w)
      = trace (run handle localSigner w) ++ evs ∧
    (count_calls is_lookup evs ≤ length transactions)%nat ∧
    (count_calls is_block evs ≤ length transactions)%nat ∧
    ∀ out, assembled (transformTransactions handle sched transactions w)
             = Some (Ok out) →
           count_calls is_lookup evs = length transactions ∧
           count_calls is_block evs = length transactions.
Proof.
  intros Hsigner.
  destruct (transformTransactions_counts is_lookup sched transactions w
              account localKey ltac:(done) Hsigner)
    as (evs & Htr & Hle & Heq).
  destruct (transformTransactions_counts is_block sched transactions w
              account localKey ltac:(done) Hsigner)
    as (evs' & Htr' & Hle' & Heq').
  rewrite Htr in Htr'. apply app_inv_head in Htr'. subst evs'.
  exists evs. split_and!; try done. intros out Hout.
  split; [by apply (Heq out) | by apply (Heq' out)].
Qed.

(** X17: whatever the collaborators answer and however the promises are
    resumed, an array [transformTransactions] fulfils with has one
    transaction per intended transaction, in input order.  For each, the
    trace holds a lookup for that intended transaction that found a key and,
    after it, a fetch of the final block that returned a block; the
    transaction is signed as the account's id, with the receiver and the
    converted actions of its intended transaction, the public key parsed
    from the key that lookup found, that key's nonce with index and one
    added by [+], and the decoded hash of the block that fetch returned. *)
Theorem transformTransactions_shape (sched : list nat)
    (transactions : list Transaction) (w : W) (out : list NearTransaction) :
  assembled (transformTransactions handle sched transactions w)
    = Some (Ok out) →
  ∃ account localKey,
    res (run handle localSigner w) = Ok (account, localKey) ∧
    length out = length transactions ∧
    ∀ i ntx, out !! i = Some ntx →
      ∃ tx key block pk blockHash,
        transactions !! i = Some tx ∧
        sublist
          [Called (account_accessKeyForTransaction account (receiverId tx)
                     (map createAction (actions tx)) localKey)
             (Ok (Some key));
           Called (provider_block (conn_provider account) "final") (Ok block)]
          (assembly_trace (transformTransactions handle sched transactions w))
        ∧
        PublicKey_from (public_key key) = Ok pk ∧
        base_decode (hash (header block)) = Ok blockHash ∧
        ntx = {| tx_signerId := acct_accountId account; tx_publicKey := pk;
                 tx_receiverId := receiverId tx;
                 tx_nonce :=
                   js_add (js_add (nonce (access_key key)) (Z.of_nat i)) 1;
                 tx_actions := map createAction (actions tx);
                 tx_blockHash := blockHash |}.
Proof.
  unfold transformTransactions.
  destruct (res (run handle localSigner w)) as [[account localKey] | e]
    eqn:Hsigner; [| done].
  cbn [assembled assembly_trace]. intros Hall.
  exists account, localKey. split; [done |]. split.
  - apply (promise_all_ensures handle (λ _ _, True)) with
        (Q := λ _ _, True) in Hall; [| done |].
    + destruct Hall as [Hlen _]. by rewrite spawn_assemble_length in Hlen.
    + intros j t _. destruct t; cbn; [| done..].
      intros x _. by apply ensures_always.
  - intros i ntx Hi.
    destruct (promise_all_returns_with handle
                (λ j h ntx, ∃ tx, transactions !! j = Some tx ∧
                                  assembled_from account localKey tx j h ntx)
                sched
                (spawn (imap (assemble account localKey) transactions)
                   (world (run handle localSigner w))
                   (trace (run handle localSigner w)))
                out) with (j := i) (a := ntx)
      as (h & Hsub & tx & Htx & key & block & pk & blockHash
            & -> & Hpk & Hhash & ->); [| exact Hall | exact Hi |].
    + intros j t Hj.
      destruct (spawn_assemble_lookup _ _ _ _ _ _ _ Hj) as (tx & Htx & ->).
      exists []. split; [apply sublist_nil_l |].
      apply task_returns_with_start.
      apply (returns_with_impl (assembled_from account localKey tx j));
        [| apply assemble_from].
      intros h' a Ha. by exists tx.
    + by exists tx, key, block, pk, blockHash.
Qed.

(** X19: when every access-key lookup of the batch resolves to the same
    access key, whose nonce is a number holding the integer [n], with
    [0 ≤ n] and [n + N] not above Number.MAX_SAFE_INTEGER for the [N]
    transactions of the batch, then whatever the order in which the promises
    are resumed, the array [transformTransactions] fulfils with has one
    transaction per intended transaction, in input order, the i-th (from 0)
    with the number [n + i + 1] as nonce; and it does fulfil, once every
    promise has been resumed twice, when the signer lookup, the block
    fetches and the two decoders succeed. *)
Theorem transformTransactions_safe_nonces (transactions : list Transaction)
    (w : W) (key : AccessKeyInfoView) (n : Z) :
  nonce (access_key key) = JsNumber (Int n) →
  0 ≤ n →
  n + Z.of_nat (length transactions) ≤ MAX_SAFE_INTEGER →
  (∀ account localKey tx w',
     res (run handle localSigner w) = Ok (account, localKey) →
     tx ∈ transactions →
     fst (handle (account_accessKeyForTransaction account (receiverId tx)
                    (map createAction (actions tx)) localKey) w')
       = Ok (Some key)) →
  (∀ sched out,
     assembled (transformTransactions handle sched transactions w)
       = Some (Ok out) →
     tx_nonce <$> out
       = (λ i : nat, JsNumber (Int (n + Z.of_nat i + 1)))
           <$> seq 0 (length transactions) ∧
     tx_receiverId <$> out = receiverId <$> transactions) ∧
  (∀ account localKey,
     res (run handle localSigner w) = Ok (account, localKey) →
     is_ok (PublicKey_from (public_key key)) = true →
     (∀ w', ∃ b,
        fst (handle (provider_block (conn_provider account) "final") w') = Ok b ∧
        is_ok (base_decode (hash (header b))) = true) →
     ∀ sched,
       (∀ i, (i < length transactions)%nat →
             (2 ≤ count_occ Nat.eq_dec sched i)%nat) →
       ∃ out, assembled (transformTransactions handle sched transactions w)
              = Some (Ok out)).
Proof.
  intros Hnonce Hn Hmax Hlookup. split.
  - intros sched out Hall.
    destruct (res (run handle localSigner w)) as [[account localKey] | e]
      eqn:Hsigner;
      [| unfold transformTransactions in Hall; by rewrite Hsigner in Hall].
    destruct (transformTransactions_assembled_at handle transactions w key
                account localKey sched out Hsigner) as [Hlen Hout];
      [by intros tx w' Hin; apply Hlookup | done |].
    split; apply fmap_eq_pointwise; rewrite ?length_seq; try done.
    + intros j ntx Hj. exists j.
      assert (j < length transactions)%nat as Hlt.
      { rewrite <- Hlen. by eapply lookup_lt_Some. }
      split; [by apply lookup_seq_lt |].
      destruct (Hout j ntx Hj) as (-> & _). rewrite Hnonce.
      apply js_add_safe; lia.
    + intros j ntx Hj.
      destruct (Hout j ntx Hj) as (_ & _ & tx & Htx & Hrecv & _).
      by exists tx.
  - intros account localKey Hsigner Hpk Hblock sched Hsched.
    apply (transformTransactions_fulfils handle transactions w key account
             localKey sched); try done.
    intros tx w' Hin. by apply Hlookup.
Qed.

(** X18: a batch that is not empty never fulfils when the public key of
    every access key the ledger returns for the local key fails to parse, nor
    when the hash of every final block fails to decode. *)
Theorem transformTransactions_needs_decoders (sched : list nat)
    (transactions : list Transaction) (w : W) (out : list NearTransaction) :
  transactions ≠ [] →
  (∀ account localKey receiver acts w' key,
     res (run handle localSigner w) = Ok (account, localKey) →
     fst (handle (account_accessKeyForTransaction account receiver acts
                    localKey) w') = Ok (Some key) →
     is_ok (PublicKey_from (public_key key)) = false) ∨
  (∀ p finality w' block,
     fst (handle (provider_block p finality) w') = Ok block →
     is_ok (base_decode (hash (header block))) = false) →
  assembled (transformTransactions handle sched transactions w)
    ≠ Some (Ok out).
Proof.
  intros Hne Hbad. unfold transformTransactions.
  destruct (res (run handle localSigner w)) as [[account localKey] | e];
    [| done].
  cbn [assembled]. intros Hall.
  assert (length out = length transactions ∧ ∀ j a, out !! j = Some a → False)
    as [Hlen Hout].
  { destruct Hbad as [Hkeys | Hblocks].
    - apply (promise_all_ensures handle (keys_unparsable account localKey))
        with (Q := λ _ _, False) in Hall.
      + by rewrite spawn_assemble_length in Hall.
      + intros [] w'; try exact I. cbn. intros -> -> key. by apply Hkeys.
      + intros j t Hj.
        destruct (spawn_assemble_lookup _ _ _ _ _ _ _ Hj) as (tx & Htx & ->).
        apply task_ensures_start, assemble_unparsable.
    - apply (promise_all_ensures handle hashes_undecodable) with
          (Q := λ _ _, False) in Hall.
      + by rewrite spawn_assemble_length in Hall.
      + intros [] w'; try exact I. cbn. intros block. apply Hblocks.
      + intros j t Hj.
        destruct (spawn_assemble_lookup _ _ _ _ _ _ _ Hj) as (tx & Htx & ->).
        apply task_ensures_start, assemble_undecodable. }
  destruct transactions as [| tx rest]; [done |].
  destruct out as [| ntx out]; [done |]. by apply (Hout 0%nat ntx).
Qed.

End AssemblerMore.

(** ** Instances in the reference environment *)

Lemma verifyOwner_of_module_witness :
  ∃ m o,
    setupFastAuthWallet (ext := Demo.ext)
      {| p_walletUrl := Some "https://wallet.example"; p_iconUrl := None;
         p_deprecated := None; p_successUrl := None; p_failureUrl := None;
         p_relayerUrl := None |}
      {| mo_network := {| networkId := "localnet" |} |} = Ok m ∧
    init m {| init_metadata := module_metadata m;
              init_network := {| networkId := "localnet" |} |} = Ok o ∧
    res (run Demo.handle (verifyOwner o) Demo.signed_in)
      = Err (Error "Method not supported by FastAuthWallet").
Proof.
  destruct (setupFastAuthWallet (ext := Demo.ext)
              {| p_walletUrl := Some "https://wallet.example";
                 p_iconUrl := None; p_deprecated := None;
                 p_successUrl := None; p_failureUrl := None;
                 p_relayerUrl := None |}
              {| mo_network := {| networkId := "localnet" |} |})
    as [m | e] eqn:Hm; [| discriminate Hm].
  destruct (init m {| init_metadata := module_metadata m;
                      init_network := {| networkId := "localnet" |} |})
    as [o | e] eqn:Hinit.
  - exists m, o. split; [reflexivity |]. split; [exact Hinit |].
    exact (f_equal res
             (verifyOwner_of_module Demo.handle _ _ m _ o Demo.signed_in
                Hm Hinit)).
  - injection Hm as <-. discriminate Hinit.
Defined.

Lemma signIn_handshake_witness :
  let p := {| si_contractId := "social.near"; si_methodNames := None;
              si_successUrl := None; si_failureUrl := None;
              si_email := None; si_accountId := Some "bob.testnet";
              si_isRecovery := None |} in
  let out := run Demo.handle (signIn Demo.options p) Demo.signed_out in
  res out = Ok [ {| accountId := "bob.testnet";
                    publicKey := "ed25519:6E8sCci9badyRkXb3JoRpBj5p8C6Tw41ELDZoiihKEtp" |} ] ∧
  length (trace out) = 6%nat.
Proof.
  intros p out.
  pose proof (signIn_handshake Demo.handle Demo.options p Demo.signed_out
                eq_refl) as Hrun.
  cbv zeta in Hrun.
  change (out = {| res := res (run Demo.handle (getAccounts Demo.options)
                                 (snd (Demo.handle (wallet_requestSignIn p)
                                         Demo.signed_out)));
                   world := world (run Demo.handle (getAccounts Demo.options)
                                     (snd (Demo.handle (wallet_requestSignIn p)
                                             Demo.signed_out)));
                   trace := trace (run Demo.handle (getAccounts Demo.options)
                                     Demo.signed_out)
                            ++ Called (wallet_requestSignIn p) (Ok ())
                            :: trace (run Demo.handle
                                        (getAccounts Demo.options)
                                        (snd (Demo.handle
                                                (wallet_requestSignIn p)
                                                Demo.signed_out))) |})
    in Hrun.
  rewrite Hrun. split; reflexivity.
Defined.

Lemma accounts_at_most_one_witness :
  [ {| accountId := "alice.testnet";
       publicKey := "ed25519:6E8sCci9badyRkXb3JoRpBj5p8C6Tw41ELDZoiihKEtp" |} ] = []
  ∨ ∃ a, [ {| accountId := "alice.testnet";
              publicKey := "ed25519:6E8sCci9badyRkXb3JoRpBj5p8C6Tw41ELDZoiihKEtp" |} ]
           = [a] ∧ accountId a ≠ "".
Proof.
  exact (accounts_at_most_one Demo.handle Demo.options
           {| si_contractId := "social.near"; si_methodNames := None;
              si_successUrl := None; si_failureUrl := None;
              si_email := None; si_accountId := None;
              si_isRecovery := None |}
           Demo.signed_in _ (or_introl eq_refl)).
Defined.

Lemma signAndSendTransactions_same_requests_witness :
  run Demo.handle
    (signAndSendTransactions Demo.options
       [Demo.pay_as "alice.testnet" "bob.near" 1; Demo.pay "carol.near" 2])
    Demo.signed_in
  = run Demo.handle
      (signAndSendTransactions Demo.options
         [Demo.pay "bob.near" 1; Demo.pay_as "mallory.testnet" "carol.near" 2])
      Demo.signed_in.
Proof.
  exact (signAndSendTransactions_same_requests Demo.handle Demo.options
           [Demo.pay_as "alice.testnet" "bob.near" 1; Demo.pay "carol.near" 2]
           [Demo.pay "bob.near" 1; Demo.pay_as "mallory.testnet" "carol.near" 2]
           Demo.signed_in eq_refl).
Defined.

Lemma transformTransactions_empty_witness :
  assembled (transformTransactions Demo.handle [0; 3; 1]%nat [] Demo.signed_in)
    = Some (Ok []) ∧
  length (assembly_trace
            (transformTransactions Demo.handle [0; 3; 1]%nat [] Demo.signed_in))
    = 2%nat.
Proof.
  rewrite (transformTransactions_empty Demo.handle [0; 3; 1]%nat Demo.signed_in
             (Demo.the_account Demo.signed_in)
             (Demo.stored_key Demo.signed_in) eq_refl).
  split; reflexivity.
Defined.

Lemma transformTransactions_calls_witness :
  ∃ evs,
    assembly_trace
      (transformTransactions Demo.handle [1; 0; 1; 5]%nat
         [Demo.pay "a.near" 1; Demo.pay "b.near" 2] Demo.signed_in)
      = trace (run Demo.handle localSigner Demo.signed_in) ++ evs ∧
    Forall (λ ev, is_relay (event_call ev) = false ∧
                  is_handshake (event_call ev) = false) evs.
Proof.
  destruct (transformTransactions_calls Demo.handle [1; 0; 1; 5]%nat
              [Demo.pay "a.near" 1; Demo.pay "b.near" 2] Demo.signed_in
              (Demo.the_account Demo.signed_in)
              (Demo.stored_key Demo.signed_in) eq_refl)
    as (evs & Htr & _ & Hevs).
  by exists evs.
Defined.

Lemma transformTransactions_call_counts_witness :
  ∃ evs,
    assembly_trace
      (transformTransactions Demo.handle [1; 0; 1; 0; 1; 0]%nat
         [Demo.pay "a.near" 1; Demo.pay "b.near" 2] Demo.signed_in)
      = trace (run Demo.handle localSigner Demo.signed_in) ++ evs ∧
    count_calls is_lookup evs = 2%nat ∧ count_calls is_block evs = 2%nat.
Proof.
  destruct (transformTransactions_call_counts Demo.handle
              [1; 0; 1; 0; 1; 0]%nat
              [Demo.pay "a.near" 1; Demo.pay "b.near" 2] Demo.signed_in
              (Demo.the_account Demo.signed_in)
              (Demo.stored_key Demo.signed_in) eq_refl)
    as (evs & Htr & _ & _ & Hfull).
  exists evs. split; [exact Htr |]. exact (Hfull _ eq_refl).
Defined.

(** Two payments, the promises resumed in turn: the second transaction is
    built from the key found for b.near and carries nonce 7. *)
Lemma transformTransactions_shape_witness :
  let batch :=
    transformTransactions Demo.handle [1; 0; 1; 0]%nat
      [Demo.pay "a.near" 1; Demo.pay "b.near" 2] Demo.signed_in in
  let account := Demo.the_account Demo.signed_in in
  ∃ out ntx key block,
    assembled batch = Some (Ok out) ∧
    out !! 1%nat = Some ntx ∧
    sublist
      [Called (account_accessKeyForTransaction account "b.near"
                 [Demo.Transfer 2] (Demo.stored_key Demo.signed_in))
         (Ok (Some key));
       Called (provider_block (conn_provider account) "final") (Ok block)]
      (assembly_trace batch) ∧
    tx_nonce ntx = js_add (js_add (nonce (access_key key)) 1) 1 ∧
    tx_nonce ntx = JsNumber (Int 7).
Proof.
  intros batch account.
  destruct (transformTransactions_shape Demo.handle [1; 0; 1; 0]%nat
              [Demo.pay "a.near" 1; Demo.pay "b.near" 2] Demo.signed_in
              _ eq_refl) as (account' & localKey & Hsigner & Hlen & Hshape).
  injection Hsigner as <- <-.
  destruct (Hshape 1%nat _ eq_refl)
    as (tx & key & block & pk & blockHash & Htx & Hsub & _ & _ & Hntx).
  injection Htx as <-.
  eexists _, _, key, block. split; [reflexivity |]. split; [reflexivity |].
  split; [exact Hsub |].
  split; [exact (f_equal tx_nonce Hntx) | reflexivity].
Defined.

(** Three payments signed with a key whose nonce is the number 5, the
    promises being resumed in a scrambled order: nonces 6, 7, 8 in input
    order. *)
Lemma transformTransactions_safe_nonces_witness :
  ∃ out,
    assembled (transformTransactions Demo.handle [2; 0; 1; 1; 0; 2]%nat
                 [Demo.pay "a.near" 1; Demo.pay "b.near" 2; Demo.pay "c.near" 3]
                 Demo.signed_in) = Some (Ok out) ∧
    tx_nonce <$> out = [JsNumber (Int 6); JsNumber (Int 7); JsNumber (Int 8)] ∧
    tx_receiverId <$> out = ["a.near"; "b.near"; "c.near"].
Proof.
  destruct (transformTransactions_safe_nonces Demo.handle
              [Demo.pay "a.near" 1; Demo.pay "b.near" 2; Demo.pay "c.near" 3]
              Demo.signed_in (Demo.ledger_key (Demo.stored_key Demo.signed_in))
              5 eq_refl)
    as [Hsafe Hlive].
  { lia. }
  { unfold MAX_SAFE_INTEGER. cbn. lia. }
  { intros account localKey tx w' Hsigner Hin.
    injection Hsigner as <- <-.
    repeat (apply elem_of_cons in Hin as [-> | Hin]); try reflexivity.
    by apply elem_of_nil in Hin. }
  destruct (Hlive (Demo.the_account Demo.signed_in)
              (Demo.stored_key Demo.signed_in) eq_refl eq_refl
              (λ w', ex_intro _ _ (conj eq_refl eq_refl))
              [2; 0; 1; 1; 0; 2]%nat) as [out Hout].
  { intros [| [| [| i]]] Hi; cbn in *; lia. }
  exists out. split; [exact Hout |]. exact (Hsafe _ _ Hout).
Defined.

Lemma transformTransactions_needs_decoders_witness :
  Demo.stored_key Demo.misnamed_key = Some "" ∧
  ∀ out,
    assembled (transformTransactions Demo.handle [0; 0; 0]%nat
                 [Demo.pay "a.near" 1] Demo.misnamed_key)
      ≠ Some (Ok out).
Proof.
  split; [reflexivity |]. intros out.
  apply (transformTransactions_needs_decoders Demo.handle [0; 0; 0]%nat
           [Demo.pay "a.near" 1] Demo.misnamed_key out); [done |].
  left. intros account localKey receiver acts w' key Hsigner.
  injection Hsigner as <- <-. cbn.
  destruct (String.eqb receiver "unknown.testnet"); [done |].
  by intros [= <-].
Defined.
